(** * AdVault DNS sinkhole: the domain normaliser, the classifier,
      the blocklist refresh and the UDP relay loop of the Python server.

    Python [str] values are modelled as lists of 8-bit code points
    ([list ascii], code points 0..255); the character predicates below follow
    Python's [str] methods on that range.  The two global sets
    [blocked_domains] and [allowed_domains] are finite sets of such strings. *)

From Stdlib Require Import Ascii String NArith ZArith List Bool Lia.
From stdpp Require Import base decidable list gmap strings.

Import ListNotations.
Local Open Scope bool_scope.
Local Open Scope list_scope.

(** ** Python strings *)

Definition str := list ascii.

(** A string literal as a Python [str]. *)
Definition lit (x : string) : str := list_ascii_of_string x.

Definition in_range (lo hi c : ascii) : bool :=
  (N_of_ascii lo <=? N_of_ascii c)%N && (N_of_ascii c <=? N_of_ascii hi)%N.

Definition is_char (x c : ascii) : bool := (N_of_ascii c =? N_of_ascii x)%N.

(** [str.isspace] on one code point below 256: TAB..CR, FS..US, space,
    NEL (0x85) and NBSP (0xa0). *)
Definition py_isspace (c : ascii) : bool :=
  in_range "009" "013" c || in_range "028" "032" c
  || is_char "133" c || is_char "160" c.

(** [str.lower] on one code point below 256: A-Z and the Latin-1 capitals
    0xC0..0xDE other than the multiplication sign 0xD7 move up by 32. *)
Definition py_lower_char (c : ascii) : ascii :=
  if in_range "A" "Z" c || (in_range "192" "222" c && negb (is_char "215" c))
  then ascii_of_N (N_of_ascii c + 32) else c.

Definition py_lower (s : str) : str := map py_lower_char s.

(** [s.lstrip], [s.rstrip] and [s.strip] for a set of characters given as a
    predicate. *)
Fixpoint lstrip_by (p : ascii -> bool) (s : str) : str :=
  match s with
  | [] => []
  | c :: s' => if p c then lstrip_by p s' else s
  end.

Definition rstrip_by (p : ascii -> bool) (s : str) : str :=
  rev (lstrip_by p (rev s)).

Definition strip_by (p : ascii -> bool) (s : str) : str :=
  rstrip_by p (lstrip_by p s).

(** [s.strip()] *)
Definition py_strip (s : str) : str := strip_by py_isspace s.

Definition char_in (chars : str) (c : ascii) : bool :=
  existsb (fun x => is_char x c) chars.

(** [s.strip(chars)] *)
Definition py_strip_chars (chars : str) (s : str) : str :=
  strip_by (char_in chars) s.

(** [s.startswith(p)], as the remainder after the prefix when there is one. *)
Fixpoint strip_prefix (p s : str) : option str :=
  match p, s with
  | [], _ => Some s
  | x :: p', c :: s' => if is_char x c then strip_prefix p' s' else None
  | _ :: _, [] => None
  end.

Definition py_startswith (p s : str) : bool :=
  match strip_prefix p s with Some _ => true | None => false end.

(** [s.split()]: split on runs of whitespace, no empty parts.  [cur] holds
    the current part in reverse. *)
Fixpoint py_split_go (cur : str) (s : str) : list str :=
  match s with
  | [] => match cur with [] => [] | _ => [rev cur] end
  | c :: s' =>
      if py_isspace c
      then match cur with
           | [] => py_split_go [] s'
           | _ => rev cur :: py_split_go [] s'
           end
      else py_split_go (c :: cur) s'
  end.

Definition py_split (s : str) : list str := py_split_go [] s.

(** [s.split(sep)] for a one-character separator: empty parts are kept and
    the result is never empty. *)
Fixpoint py_split_on (sep : ascii) (s : str) : list str :=
  match s with
  | [] => [[]]
  | c :: s' =>
      if is_char sep c then [] :: py_split_on sep s'
      else match py_split_on sep s' with
           | p :: ps => (c :: p) :: ps
           | [] => [[c]]
           end
  end.

(** [sep.join(parts)] *)
Fixpoint py_join (sep : str) (parts : list str) : str :=
  match parts with
  | [] => []
  | [p] => p
  | p :: ps => p ++ sep ++ py_join sep ps
  end.

(** [c in s] *)
Definition py_contains (c : ascii) (s : str) : bool :=
  existsb (fun x => is_char c x) s.

(** [s.splitlines()] on code points below 256: LF, CR, CRLF, VT, FF, FS,
    GS, RS and NEL end a line; a final line break adds no empty line. *)
Definition is_linebreak (c : ascii) : bool :=
  in_range "010" "013" c || in_range "028" "030" c || is_char "133" c.

Fixpoint py_splitlines_go (cur : str) (s : str) : list str :=
  match s with
  | [] => match cur with [] => [] | _ => [rev cur] end
  | c :: s' =>
      if is_char "013" c
      then match s' with
           | c' :: s'' =>
               if is_char "010" c' then rev cur :: py_splitlines_go [] s''
               else rev cur :: py_splitlines_go [] s'
           | [] => [rev cur]
           end
      else if is_linebreak c then rev cur :: py_splitlines_go [] s'
      else py_splitlines_go (c :: cur) s'
  end.

Definition py_splitlines (s : str) : list str := py_splitlines_go [] s.

(** ** Regular expressions (the part of [re] the server uses) *)

Inductive regex : Type :=
| RNone : regex
| REps : regex
| RChar : (ascii -> bool) -> regex
| RCat : regex -> regex -> regex
| RAlt : regex -> regex -> regex.

Fixpoint nullable (r : regex) : bool :=
  match r with
  | RNone => false
  | REps => true
  | RChar _ => false
  | RCat r1 r2 => nullable r1 && nullable r2
  | RAlt r1 r2 => nullable r1 || nullable r2
  end.

(** Brzozowski derivative of [r] by the character [c]. *)
Fixpoint deriv (c : ascii) (r : regex) : regex :=
  match r with
  | RNone => RNone
  | REps => RNone
  | RChar p => if p c then REps else RNone
  | RCat r1 r2 =>
      if nullable r1 then RAlt (RCat (deriv c r1) r2) (deriv c r2)
      else RCat (deriv c r1) r2
  | RAlt r1 r2 => RAlt (deriv c r1) (deriv c r2)
  end.

Fixpoint matches (r : regex) (s : str) : bool :=
  match s with
  | [] => nullable r
  | c :: s' => matches (deriv c r) s'
  end.

(** [re.match("^" r "$", s)]: the whole of [s] matches, or [s] ends in a
    line feed and the rest matches (Python's [$] without MULTILINE). *)
Definition re_match_anchored (r : regex) (s : str) : bool :=
  matches r s
  || match rev s with
     | c :: s' => is_char "010" c && matches r (rev s')
     | [] => false
     end.

Definition is_digit (c : ascii) : bool := in_range "0" "9" c.

(** [\d{1,3}] *)
Definition re_digits_1_3 : regex :=
  RCat (RChar is_digit)
       (RCat (RAlt (RChar is_digit) REps) (RAlt (RChar is_digit) REps)).

Definition re_dot : regex := RChar (is_char ".").

(** [\d{1,3}\.\d{1,3}\.\d{1,3}\.\d{1,3}] *)
Definition re_ipv4 : regex :=
  RCat re_digits_1_3 (RCat re_dot
  (RCat re_digits_1_3 (RCat re_dot
  (RCat re_digits_1_3 (RCat re_dot re_digits_1_3))))).

(** [re.sub(r"^(https?://)?(www\.)?", "", s)]: both groups are optional and
    greedy and the pattern is anchored at position 0, so the one match is
    the scheme when present followed by [www.] when present. *)
Definition re_sub_scheme_www (s : str) : str :=
  let s1 :=
    match strip_prefix (lit "https://") s with
    | Some r => r
    | None => match strip_prefix (lit "http://") s with
              | Some r => r
              | None => s
              end
    end in
  match strip_prefix (lit "www.") s1 with
  | Some r => r
  | None => s1
  end.

(** The character class [[a-z0-9\.-]]. *)
Definition is_domain_char (c : ascii) : bool :=
  in_range "a" "z" c || in_range "0" "9" c || is_char "." c || is_char "-" c.

(** [re.sub(r"[^a-z0-9\.-]", "", s)] *)
Definition re_sub_non_domain_chars (s : str) : str :=
  List.filter is_domain_char s.

(** ** Domain management *)

(** [cleanup_domain(domain)] *)
Definition cleanup_domain (domain : str) : str :=
  let domain := py_lower (py_strip domain) in
  if match domain with [] => true | _ => false end
     || py_startswith (lit "#") domain
  then []
  else
    let parts := py_split domain in
    let domain :=
      match parts with
      | p0 :: p1 :: _ => if re_match_anchored re_ipv4 p0 then p1 else domain
      | _ => domain
      end in
    let domain := re_sub_scheme_www domain in
    let domain :=
      if py_contains "/" domain then hd [] (py_split_on "/" domain)
      else domain in
    let domain := re_sub_non_domain_chars domain in
    py_strip_chars (lit "-.") domain.

(** The two global sets of the server. *)
Record state := {
  blocked_domains : gset str;
  allowed_domains : gset str;
}.

(** The body of the two loading loops: [domain = cleanup_domain(line)] and
    [if domain: domains.add(domain)], for each line in turn. *)
Fixpoint add_lines (lines : list str) (domains : gset str) : gset str :=
  match lines with
  | [] => domains
  | line :: rest =>
      let domain := cleanup_domain line in
      add_lines rest
        match domain with
        | [] => domains
        | _ => domains ∪ {[ domain ]}
        end
  end.

(** The number of lines that yield a domain ([lines_fetched]). *)
Definition count_entries (lines : list str) : nat :=
  List.length (List.filter
    (fun line => match cleanup_domain line with [] => false | _ => true end)
    lines).

(** A file system maps a path to the lines that iterating over the open
    file yields, or to [None] when [os.path.exists] is false. *)
Definition filesystem := str -> option (list str).

(** [load_domains_from_file(filepath)] *)
Definition load_domains_from_file (fs : filesystem) (filepath : str)
  : gset str :=
  match fs filepath with
  | Some lines => add_lines lines ∅
  | None => ∅
  end.

(** What [requests.get(url, timeout=15)] does: it returns a response with
    a status code and a body, or raises. *)
Inductive fetch_result : Type :=
| Response (status_code : Z) (text : str)
| RaisesTimeout
| RaisesRequestException
| RaisesOther.

Definition network := str -> fetch_result.

(** [response.raise_for_status()] raises [HTTPError], a
    [RequestException], exactly on the 4xx and 5xx codes. *)
Definition raise_for_status (status_code : Z) : bool :=
  (400 <=? status_code)%Z && (status_code <? 600)%Z.

(** The lines the refresh prints. *)
Inductive log_line : Type :=
| InfoFetching
| InfoFetched (lines_fetched : nat) (url : str)
| ErrorTimedOut (url : str)
| ErrorFailed (url : str)
| ErrorUnexpected (url : str)
| InfoTotal (n : nat).

(** One round of [for url in blocklist_sources], with its [try] and its
    three [except] clauses. *)
Definition fetch_source (net : network) (url : str) (temp_blocklist : gset str)
  : gset str * log_line :=
  match net url with
  | Response status_code text =>
      if raise_for_status status_code
      then (temp_blocklist, ErrorFailed url)
      else
        let lines := py_splitlines text in
        (add_lines lines temp_blocklist, InfoFetched (count_entries lines) url)
  | RaisesTimeout => (temp_blocklist, ErrorTimedOut url)
  | RaisesRequestException => (temp_blocklist, ErrorFailed url)
  | RaisesOther => (temp_blocklist, ErrorUnexpected url)
  end.

Fixpoint fetch_sources (net : network) (urls : list str)
    (temp_blocklist : gset str) : gset str * list log_line :=
  match urls with
  | [] => (temp_blocklist, [])
  | url :: rest =>
      let '(temp_blocklist', l) := fetch_source net url temp_blocklist in
      let '(final, ls) := fetch_sources net rest temp_blocklist' in
      (final, l :: ls)
  end.

(** [fetch_and_load_remote_blocklists()], over the list of sources; the
    last two steps are [blocked_domains.clear()] and
    [blocked_domains.update(temp_blocklist)]. *)
Definition fetch_and_load_remote_blocklists (net : network)
    (blocklist_sources : list str) (st : state) : state * list log_line :=
  let '(temp_blocklist, logs) := fetch_sources net blocklist_sources ∅ in
  let cleared : gset str := ∅ in
  let updated := cleared ∪ temp_blocklist in
  ({| blocked_domains := updated; allowed_domains := allowed_domains st |},
   InfoFetching :: logs ++ [InfoTotal (size updated)]).

(** A source is fetched successfully when [requests.get] returns and
    [raise_for_status] does not raise. *)
Definition fetched (net : network) (url : str) : option str :=
  match net url with
  | Response status_code text =>
      if raise_for_status status_code then None else Some text
  | _ => None
  end.

(** ** The classifier *)

(** The [for i in range(len(parts))] loop of [is_domain_blocked]: it
    returns [True] at the first [i] whose candidate
    [".".join(parts[i:])] is in [blocked_domains]. *)
Definition suffix_candidates (parts : list str) : list str :=
  map (fun i => py_join (lit ".") (drop i parts)) (seq 0 (List.length parts)).

Definition in_set (x : str) (s : gset str) : bool := bool_decide (x ∈ s).

(** [is_domain_blocked(qname)] *)
Definition is_domain_blocked (st : state) (qname : str) : bool :=
  let qname_cleaned := cleanup_domain qname in
  if in_set qname_cleaned (allowed_domains st) then false
  else if in_set qname_cleaned (blocked_domains st) then true
  else
    let parts := py_split_on "." qname_cleaned in
    existsb (fun sub_domain_candidate =>
               in_set sub_domain_candidate (blocked_domains st))
            (suffix_candidates parts).

(** The candidate on which [is_domain_blocked] returns [True] inside the
    loop, when it gets there and finds one. *)
Definition deciding_candidate (st : state) (qname : str) : option str :=
  let qname_cleaned := cleanup_domain qname in
  if in_set qname_cleaned (allowed_domains st) then None
  else if in_set qname_cleaned (blocked_domains st) then None
  else
    List.find (fun c => in_set c (blocked_domains st))
              (suffix_candidates (py_split_on "." qname_cleaned)).

Inductive BlockDecision : Type := BLOCK | ALLOW.

Definition classify (st : state) (qname : str) : BlockDecision :=
  if is_domain_blocked st qname then BLOCK else ALLOW.

(** ** DNS messages

    The part of dnslib's [DNSRecord] API that [dns_server] uses: the header
    fields, [request.q] (the question of the request), [request.reply()],
    [reply.add_answer(...)] and the [RR] and [A] constructors. *)

Definition bytes := list Byte.byte.

Definition address := (str * Z)%type.

Record DNSHeader := {
  h_id : Z;
  h_qr : bool;
  h_opcode : Z;
  h_aa : bool;
  h_tc : bool;
  h_rd : bool;
  h_ra : bool;
  h_rcode : Z;
}.

(** [qname] is [str(q.qname)], the dotted name with its final dot. *)
Record DNSQuestion := {
  qname : str;
  qtype : Z;
  qclass : Z;
}.

Inductive RD : Type :=
| A (a b c d : Z)
| RDRaw (data : bytes).

Record RR := {
  rname : str;
  rtype : Z;
  rclass : Z;
  ttl : Z;
  rdata : RD;
}.

Record DNSRecord := {
  header : DNSHeader;
  q : DNSQuestion;
  rr : list RR;
  auth : list RR;
  ar : list RR;
}.

Definition QTYPE_A : Z := 1.
Definition QTYPE_AAAA : Z := 28.
Definition QTYPE_TXT : Z := 16.
Definition CLASS_IN : Z := 1.
Definition SERVFAIL : Z := 2.

(** [request.reply()]: same id and flags with QR, AA and RA set, the
    question of the request, and no records. *)
Definition reply (request : DNSRecord) : DNSRecord :=
  {| header := {| h_id := h_id (header request);
                  h_qr := true;
                  h_opcode := h_opcode (header request);
                  h_aa := true;
                  h_tc := h_tc (header request);
                  h_rd := h_rd (header request);
                  h_ra := true;
                  h_rcode := h_rcode (header request) |};
     q := q request;
     rr := [];
     auth := [];
     ar := [] |}.

(** [record.add_answer(x)] *)
Definition add_answer (record : DNSRecord) (x : RR) : DNSRecord :=
  {| header := header record; q := q record;
     rr := rr record ++ [x]; auth := auth record; ar := ar record |}.

(** [record.header.rcode = code] *)
Definition set_rcode (record : DNSRecord) (code : Z) : DNSRecord :=
  {| header := {| h_id := h_id (header record);
                  h_qr := h_qr (header record);
                  h_opcode := h_opcode (header record);
                  h_aa := h_aa (header record);
                  h_tc := h_tc (header record);
                  h_rd := h_rd (header record);
                  h_ra := h_ra (header record);
                  h_rcode := code |};
     q := q record; rr := rr record; auth := auth record; ar := ar record |}.

(** [RR(name, QTYPE.A, rdata=A("0.0.0.0"))], class IN and TTL 0 by default. *)
Definition sinkhole_rr (name : str) : RR :=
  {| rname := name; rtype := QTYPE_A; rclass := CLASS_IN; ttl := 0;
     rdata := A 0 0 0 0 |}.

(** ** The relay loop: calls, exceptions and their handlers *)

Inductive exn : Type :=
| SocketTimeout
| OtherException.

(** What is handed to [sendto]: bytes received from a socket, or
    [record.pack()]. *)
Inductive payload : Type :=
| Raw (data : bytes)
| Packed (record : DNSRecord).

Inductive console_msg : Type :=
| MsgBlocked (name : str) (host : str)
| MsgUpstreamTimeout (name : str)
| MsgUpstreamFailed (name : str)
| MsgLogFailed (name : str)
| MsgProcessingError.

(** The calls one iteration of the loop makes, in order. *)
Inductive event : Type :=
| Recvfrom
| Sendto (p : payload) (addr : address)
| LogAppend (name : str)
| Print (m : console_msg)
| UpstreamSocket
| UpstreamSettimeout (seconds : Z)
| UpstreamSendto (data : bytes) (dest : address)
| UpstreamRecvfrom
| UpstreamClose.

(** A computation makes calls and then returns a value or raises. *)
Definition M (X : Type) : Type := (list event * (exn + X))%type.

Definition ret {X} (x : X) : M X := ([], inr x).

Definition raise {X} (e : exn) : M X := ([], inl e).

Definition bind {X Y} (m : M X) (f : X -> M Y) : M Y :=
  match m with
  | (t, inl e) => (t, inl e)
  | (t, inr x) => let '(t', r) := f x in (t ++ t', r)
  end.

Notation "x <- m ;; k" := (bind m (fun x => k))
  (at level 100, m at next level, right associativity).
Notation "m ;;; k" := (bind m (fun _ => k))
  (at level 100, right associativity).

(** [try: m  except ... as e: h e] *)
Definition try_except {X} (m : M X) (h : exn -> M X) : M X :=
  match m with
  | (t, inl e) => let '(t', r) := h e in (t ++ t', r)
  | (t, inr x) => (t, inr x)
  end.

(** [try: m  finally: fin] *)
Definition try_finally {X} (m : M X) (fin : M unit) : M X :=
  let '(t, r) := m in
  match fin with
  | (t', inl e) => (t ++ t', inl e)
  | (t', inr _) => (t ++ t', r)
  end.

(** A call that returns nothing: it is made, then it returns or raises. *)
Definition call (ev : event) (outcome : option exn) : M unit :=
  match outcome with
  | None => ([ev], inr tt)
  | Some e => ([ev], inl e)
  end.

(** A call that returns a value. *)
Definition call_value {X} (ev : event) (outcome : exn + X) : M X :=
  ([ev], outcome).

(** What the outside does during one iteration of the loop: the two sets
    as they are when the query is classified, and the outcome of each
    call. *)
Record world := {
  w_state : state;
  w_recvfrom : exn + (bytes * address);
  w_log_write : option exn;
  w_sendto_sinkhole : option exn;
  w_socket : option exn;
  w_upstream_sendto : option exn;
  w_upstream_recvfrom : exn + bytes;
  w_sendto_relay : option exn;
  w_sendto_servfail : option exn;
}.

Definition google_dns : address := (lit "1.1.1.1", 53%Z).

(** [log_blocked_domain(domain)]: a failed append is printed, not raised. *)
Definition log_blocked_domain (w : world) (domain : str) : M unit :=
  try_except (call (LogAppend domain) (w_log_write w))
             (fun _ => call (Print (MsgLogFailed domain)) None).

(** The body of [while True] in [dns_server()].  [parse] is
    [DNSRecord.parse], which raises on bytes it cannot decode. *)
Definition serve_one (parse : bytes -> option DNSRecord) (w : world) : M unit :=
  try_except
    (received <- call_value Recvfrom (w_recvfrom w) ;;
     let '(data, addr) := received in
     request <- match parse data with
                | Some r => ret r
                | None => raise OtherException
                end ;;
     let name := py_strip_chars (lit ".") (qname (q request)) in
     if is_domain_blocked (w_state w) name
     then
       call (Print (MsgBlocked name (fst addr))) None ;;;
       log_blocked_domain w name ;;;
       let reply := add_answer (reply request) (sinkhole_rr name) in
       call (Sendto (Packed reply) addr) (w_sendto_sinkhole w)
     else
       call UpstreamSocket (w_socket w) ;;;
       call (UpstreamSettimeout 10) None ;;;
       try_finally
         (try_except
            (call (UpstreamSendto data google_dns) (w_upstream_sendto w) ;;;
             response_data <- call_value UpstreamRecvfrom
                                (w_upstream_recvfrom w) ;;
             call (Sendto (Raw response_data) addr) (w_sendto_relay w))
            (fun e =>
               match e with
               | SocketTimeout =>
                   call (Print (MsgUpstreamTimeout name)) None ;;;
                   let reply := set_rcode (reply request) SERVFAIL in
                   call (Sendto (Packed reply) addr) (w_sendto_servfail w)
               | OtherException =>
                   call (Print (MsgUpstreamFailed name)) None ;;;
                   let reply := set_rcode (reply request) SERVFAIL in
                   call (Sendto (Packed reply) addr) (w_sendto_servfail w)
               end))
         (call UpstreamClose None))
    (fun _ => call (Print MsgProcessingError) None).

(** [dns_server()] after the bind, run for as many iterations as there
    are worlds; an exception that leaves an iteration ends the loop. *)
Fixpoint dns_server (parse : bytes -> option DNSRecord) (ws : list world)
  : M unit :=
  match ws with
  | [] => ret tt
  | w :: ws' => serve_one parse w ;;; dns_server parse ws'
  end.

Definition is_sendto (ev : event) : bool :=
  match ev with Sendto _ _ => true | _ => false end.

(** The calls to [sock.sendto] on the listening socket in a trace. *)
Definition replies (t : list event) : list event := List.filter is_sendto t.

(** The upstream forward fails when sending to or receiving from the
    upstream socket raises (a timeout or any other error). *)
Definition upstream_fails (w : world) : Prop :=
  w_upstream_sendto w <> None \/
  exists e, w_upstream_recvfrom w = inl e.

(** ** The two threads and [domain_set_lock]

    The process has two threads that touch [blocked_domains]: the updater
    thread, which runs [fetch_and_load_remote_blocklists], and the main
    thread, which runs [dns_server] and calls [is_domain_blocked] once per
    query.  Both enter [with domain_set_lock] around their accesses.  The
    steps below are the single accesses to the shared set; [update] adds the
    elements one at a time, so the set really is partial while the updater
    holds the lock. *)

Module Threads.

Inductive tid : Type := Updater | Main.

(** Where the updater is in the last three statements of the refresh. *)
Inductive updater_pc : Type :=
| UWaiting (temp_blocklist : gset str)
| ULocked (temp_blocklist : gset str)
| UUpdating (todo : list str)
| UDone.

(** Where the main thread is in [is_domain_blocked(qname)]. *)
Inductive main_pc : Type :=
| MIdle
| MWaiting (qname : str)
| MCheckAllowed (qname : str)
| MCheckBlocked (qname : str)
| MLoop (qname : str) (candidates : list str).

Record config := {
  lock : option tid;
  blocked : gset str;
  allowed : gset str;
  updater : updater_pc;
  main : main_pc;
  pending : list str;
  observed : list (gset str);
  returned : list (str * bool);
}.

Definition set_lock (l : option tid) (c : config) : config :=
  {| lock := l; blocked := blocked c; allowed := allowed c;
     updater := updater c; main := main c; pending := pending c;
     observed := observed c; returned := returned c |}.

Definition set_blocked (b : gset str) (c : config) : config :=
  {| lock := lock c; blocked := b; allowed := allowed c;
     updater := updater c; main := main c; pending := pending c;
     observed := observed c; returned := returned c |}.

Definition set_updater (u : updater_pc) (c : config) : config :=
  {| lock := lock c; blocked := blocked c; allowed := allowed c;
     updater := u; main := main c; pending := pending c;
     observed := observed c; returned := returned c |}.

Definition set_main (m : main_pc) (c : config) : config :=
  {| lock := lock c; blocked := blocked c; allowed := allowed c;
     updater := updater c; main := m; pending := pending c;
     observed := observed c; returned := returned c |}.

Definition set_pending (p : list str) (c : config) : config :=
  {| lock := lock c; blocked := blocked c; allowed := allowed c;
     updater := updater c; main := main c; pending := p;
     observed := observed c; returned := returned c |}.

(** The main thread reads [blocked_domains] for one membership test. *)
Definition observe (c : config) : config :=
  {| lock := lock c; blocked := blocked c; allowed := allowed c;
     updater := updater c; main := main c; pending := pending c;
     observed := observed c ++ [blocked c]; returned := returned c |}.

(** [return result] inside [with domain_set_lock]: the lock is released
    and the call is over. *)
Definition return_ (name : str) (result : bool) (c : config) : config :=
  {| lock := None; blocked := blocked c; allowed := allowed c;
     updater := updater c; main := MIdle; pending := pending c;
     observed := observed c; returned := returned c ++ [(name, result)] |}.

Inductive step : config -> config -> Prop :=
(* the updater *)
| step_u_acquire c t :
    updater c = UWaiting t -> lock c = None ->
    step c (set_updater (ULocked t) (set_lock (Some Updater) c))
| step_u_clear c t :
    updater c = ULocked t ->
    step c (set_updater (UUpdating (elements t)) (set_blocked ∅ c))
| step_u_add c x todo :
    updater c = UUpdating (x :: todo) ->
    step c (set_updater (UUpdating todo) (set_blocked (blocked c ∪ {[ x ]}) c))
| step_u_release c :
    updater c = UUpdating [] ->
    step c (set_updater UDone (set_lock None c))
(* the main thread *)
| step_m_call c name rest :
    main c = MIdle -> pending c = name :: rest ->
    step c (set_main (MWaiting name) (set_pending rest c))
| step_m_acquire c name :
    main c = MWaiting name -> lock c = None ->
    step c (set_main (MCheckAllowed name) (set_lock (Some Main) c))
| step_m_allowed c name :
    main c = MCheckAllowed name -> cleanup_domain name ∈ allowed c ->
    step c (return_ name false c)
| step_m_not_allowed c name :
    main c = MCheckAllowed name -> cleanup_domain name ∉ allowed c ->
    step c (set_main (MCheckBlocked name) c)
| step_m_blocked c name :
    main c = MCheckBlocked name -> cleanup_domain name ∈ blocked c ->
    step c (return_ name true (observe c))
| step_m_not_blocked c name :
    main c = MCheckBlocked name -> cleanup_domain name ∉ blocked c ->
    step c (set_main
              (MLoop name
                 (suffix_candidates (py_split_on "." (cleanup_domain name))))
              (observe c))
| step_m_loop_hit c name cand cands :
    main c = MLoop name (cand :: cands) -> cand ∈ blocked c ->
    step c (return_ name true (observe c))
| step_m_loop_miss c name cand cands :
    main c = MLoop name (cand :: cands) -> cand ∉ blocked c ->
    step c (set_main (MLoop name cands) (observe c))
| step_m_loop_end c name :
    main c = MLoop name [] ->
    step c (return_ name false c).

(** The start: the lock is free, the set is the previous one, the updater
    has built [new] and is about to swap it in, and the main thread has
    the queries [names] still to classify. *)
Definition initial (old new allow : gset str) (names : list str) : config :=
  {| lock := None; blocked := old; allowed := allow;
     updater := UWaiting new; main := MIdle; pending := names;
     observed := []; returned := [] |}.

(** The two sets as the main thread finds them in a configuration. *)
Definition current (c : config) : state :=
  {| blocked_domains := blocked c; allowed_domains := allowed c |}.

(** What holds of the updater at each of its program points. *)
Definition updater_inv (old new : gset str) (c : config) : Prop :=
  match updater c with
  | UWaiting t => t = new /\ blocked c = old /\ lock c <> Some Updater
  | ULocked t => t = new /\ blocked c = old /\ lock c = Some Updater
  | UUpdating todo =>
      lock c = Some Updater /\ blocked c ∪ list_to_set todo = new
  | UDone => blocked c = new /\ lock c <> Some Updater
  end.

(** What holds of the main thread at each of its program points. *)
Definition main_inv (c : config) : Prop :=
  match main c with
  | MIdle => lock c <> Some Main
  | MWaiting _ => lock c <> Some Main
  | MCheckAllowed _ => lock c = Some Main
  | MCheckBlocked name =>
      lock c = Some Main /\ cleanup_domain name ∉ allowed c
  | MLoop name cands =>
      lock c = Some Main
      /\ is_domain_blocked (current c) name
         = existsb (fun cand => in_set cand (blocked c)) cands
  end.

(** A complete set is the previous one or the new one. *)
Definition complete (old new b : gset str) : Prop := b = old \/ b = new.

Definition results_inv (old new : gset str) (c : config) : Prop :=
  Forall (complete old new) (observed c)
  /\ Forall (fun nr =>
               snd nr = is_domain_blocked
                          {| blocked_domains := old;
                             allowed_domains := allowed c |} (fst nr)
               \/ snd nr = is_domain_blocked
                             {| blocked_domains := new;
                                allowed_domains := allowed c |} (fst nr))
            (returned c).

Definition inv (old new : gset str) (c : config) : Prop :=
  updater_inv old new c /\ main_inv c /\ results_inv old new c.

(** The step that thread [t] takes next, as a function; a thread that
    waits for the lock, or has nothing left to do, stays where it is. *)
Definition exec_one (t : tid) (c : config) : config :=
  match t with
  | Updater =>
      match updater c with
      | UWaiting temp =>
          match lock c with
          | None => set_updater (ULocked temp) (set_lock (Some Updater) c)
          | Some _ => c
          end
      | ULocked temp => set_updater (UUpdating (elements temp)) (set_blocked ∅ c)
      | UUpdating (x :: todo) =>
          set_updater (UUpdating todo) (set_blocked (blocked c ∪ {[ x ]}) c)
      | UUpdating [] => set_updater UDone (set_lock None c)
      | UDone => c
      end
  | Main =>
      match main c with
      | MIdle =>
          match pending c with
          | name :: rest => set_main (MWaiting name) (set_pending rest c)
          | [] => c
          end
      | MWaiting name =>
          match lock c with
          | None => set_main (MCheckAllowed name) (set_lock (Some Main) c)
          | Some _ => c
          end
      | MCheckAllowed name =>
          if in_set (cleanup_domain name) (allowed c)
          then return_ name false c
          else set_main (MCheckBlocked name) c
      | MCheckBlocked name =>
          if in_set (cleanup_domain name) (blocked c)
          then return_ name true (observe c)
          else set_main
                 (MLoop name
                    (suffix_candidates
                       (py_split_on "." (cleanup_domain name))))
                 (observe c)
      | MLoop name (cand :: cands) =>
          if in_set cand (blocked c)
          then return_ name true (observe c)
          else set_main (MLoop name cands) (observe c)
      | MLoop name [] => return_ name false c
      end
  end.

(** A schedule names the thread that moves at each turn. *)
Fixpoint exec (schedule : list tid) (c : config) : config :=
  match schedule with
  | [] => c
  | t :: rest => exec rest (exec_one t c)
  end.

(** The updater is between acquiring and releasing the lock. *)
Definition updater_in_cs (c : config) : bool :=
  match updater c with
  | ULocked _ | UUpdating _ => true
  | UWaiting _ | UDone => false
  end.

(** The main thread is between acquiring and releasing the lock. *)
Definition main_in_cs (c : config) : bool :=
  match main c with
  | MCheckAllowed _ | MCheckBlocked _ | MLoop _ _ => true
  | MIdle | MWaiting _ => false
  end.

(** The query the main thread is working on, if any. *)
Definition in_flight (c : config) : list str :=
  match main c with
  | MIdle => []
  | MWaiting name | MCheckAllowed name | MCheckBlocked name
  | MLoop name _ => [name]
  end.

(** Both threads are done: the refresh is over and no query is left. *)
Definition finished (c : config) : Prop :=
  updater c = UDone /\ main c = MIdle /\ pending c = [].

End Threads.

(** ** The vocabulary of the specification *)

(** The canonical form of a Domain: characters of [[a-z0-9.-]] only,
    unchanged by lowercasing, and neither [.] nor [-] at either end. *)
Definition canonical (d : str) : Prop :=
  Forall (fun c => is_domain_char c = true) d
  /\ py_lower d = d
  /\ (forall c, head d = Some c -> char_in (lit "-.") c = false)
  /\ (forall c, last d = Some c -> char_in (lit "-.") c = false).

(** A Domain is a non-empty string in canonical form. *)
Definition Domain (d : str) : Prop := d <> [] /\ canonical d.

(** [s] ends with ["." + d]. *)
Definition ends_with_dot (d s : str) : Prop :=
  exists p, s = p ++ lit "." ++ d.

(** [t] is [s] or a right-aligned suffix of [s] that starts after a dot. *)
Definition label_suffix (t s : str) : Prop :=
  t = s \/ ends_with_dot t s.

(** A raw line that is whitespace only (the empty line included). *)
Definition blank (line : str) : Prop :=
  Forall (fun c => py_isspace c = true) line.

(** A raw line whose trimmed form begins with the comment marker [#]. *)
Definition comment (line : str) : Prop :=
  py_startswith (lit "#") (py_strip line) = true.

(** The non-empty normalised lines of the sources that were fetched. *)
Definition produced_by (net : network) (urls : list str) (d : str) : Prop :=
  exists url text line,
    url ∈ urls /\ fetched net url = Some text
    /\ line ∈ py_splitlines text
    /\ cleanup_domain line = d /\ d <> [].

(** A source whose fetch fails: [requests.get] raises or the status is one
    [raise_for_status] rejects. *)
Definition fetch_fails (net : network) (url : str) : Prop :=
  fetched net url = None.

(** The classifier as the claim on suffix inheritance words it: ALLOW when
    the name or one of its suffixes down to (not including) the blocked
    domain [d] is allowlisted, BLOCK otherwise. *)
Definition inheritance_as_stated (st : state) (d s : str) : Prop :=
  ((exists t, label_suffix t s /\ ends_with_dot d t /\ t ∈ allowed_domains st)
   -> classify st s = ALLOW)
  /\ (~ (exists t, label_suffix t s /\ ends_with_dot d t
                   /\ t ∈ allowed_domains st)
      -> classify st s = BLOCK).

(** The suffix walk as the specification words it: only the right-aligned
    suffixes of at least two labels, shortest first. *)
Definition spec_candidates (parts : list str) : list str :=
  map (fun i => py_join (lit ".") (drop i parts))
      (rev (seq 0 (List.length parts - 1))).

Definition classify_spec (st : state) (name : str) : BlockDecision :=
  let n := cleanup_domain name in
  if in_set n (allowed_domains st) then ALLOW
  else if in_set n (blocked_domains st) then BLOCK
  else if existsb (fun c => in_set c (blocked_domains st))
                  (spec_candidates (py_split_on "." n))
       then BLOCK else ALLOW.

(** The name [dns_server] classifies: [str(request.q.qname).strip('.')]. *)
Definition query_name (request : DNSRecord) : str :=
  py_strip_chars (lit ".") (qname (q request)).


(** The line the refresh prints for a source whose fetch fails. *)
Definition failure_logged (url : str) (logs : list log_line) : Prop :=
  ErrorTimedOut url ∈ logs \/ ErrorFailed url ∈ logs
  \/ ErrorUnexpected url ∈ logs.

(** The forward of a query fails: creating the outbound socket, sending
    to the upstream or receiving from it raises (a timeout or any other
    error). *)
Definition forward_fails (w : world) : Prop :=
  w_socket w <> None \/ upstream_fails w.

(** The promise on failed forwards as the specification words it: a
    decodable query that classifies ALLOW and whose forward fails is sent a
    SERVFAIL reply with the id and the question of the request. *)
Definition servfail_as_stated (parse : bytes -> option DNSRecord) (w : world)
  : Prop :=
  forall data addr request,
    w_recvfrom w = inr (data, addr) ->
    parse data = Some request ->
    classify (w_state w) (query_name request) = ALLOW ->
    forward_fails w ->
    exists answer,
      Sendto (Packed answer) addr ∈ fst (serve_one parse w)
      /\ h_rcode (header answer) = SERVFAIL
      /\ h_id (header answer) = h_id (header request)
      /\ q answer = q request.

(** ** Concrete inputs used by the examples *)

Definition hosts_net : network :=
  fun url =>
    if bool_decide (url = lit "https://someonewhocares.org/hosts/hosts")
    then Response 200 (lit "# hosts
127.0.0.1 localhost
0.0.0.0 Ads.Example.com
")
    else Response 500 [].

Definition empty_state : state :=
  {| blocked_domains := ∅; allowed_domains := ∅ |}.

Definition allow_sub_state : state :=
  {| blocked_domains := {[ lit "example.com" ]};
     allowed_domains := {[ lit "safe.example.com" ]} |}.

Definition localhost_state : state :=
  {| blocked_domains := {[ lit "localhost" ]};
     allowed_domains := ∅ |}.

Definition client : address := (lit "192.168.1.20", 50123%Z).

(** A query for the AAAA record of [ads.example.com.] with id 4660. *)
Definition aaaa_query : DNSRecord :=
  {| header := {| h_id := 4660; h_qr := false; h_opcode := 0; h_aa := false;
                  h_tc := false; h_rd := true; h_ra := false; h_rcode := 0 |};
     q := {| qname := lit "ads.example.com."; qtype := QTYPE_AAAA;
             qclass := CLASS_IN |};
     rr := []; auth := []; ar := [] |}.

(** A query for the A record of [safe.com.] with id 7. *)
Definition safe_query : DNSRecord :=
  {| header := {| h_id := 7; h_qr := false; h_opcode := 0; h_aa := false;
                  h_tc := false; h_rd := true; h_ra := false; h_rcode := 0 |};
     q := {| qname := lit "safe.com."; qtype := QTYPE_A;
             qclass := CLASS_IN |};
     rr := []; auth := []; ar := [] |}.

(** A decoder for the examples: the datagram [[x01]] is [aaaa_query],
    [[x02]] is [safe_query], anything else does not decode. *)
Definition toy_parse (data : bytes) : option DNSRecord :=
  match data with
  | [Byte.x01] => Some aaaa_query
  | [Byte.x02] => Some safe_query
  | _ => None
  end.

Definition example_state : state :=
  {| blocked_domains := {[ lit "example.com" ]}; allowed_domains := ∅ |}.

(** A world in which every call returns; the upstream answers [[xff]]. *)
Definition calm_world (data : bytes) : world :=
  {| w_state := example_state;
     w_recvfrom := inr (data, client);
     w_log_write := None;
     w_sendto_sinkhole := None;
     w_socket := None;
     w_upstream_sendto := None;
     w_upstream_recvfrom := inr [Byte.xff];
     w_sendto_relay := None;
     w_sendto_servfail := None |}.

(** The same, but the upstream never answers. *)
Definition timeout_world (data : bytes) : world :=
  {| w_state := example_state;
     w_recvfrom := inr (data, client);
     w_log_write := None;
     w_sendto_sinkhole := None;
     w_socket := None;
     w_upstream_sendto := None;
     w_upstream_recvfrom := inl SocketTimeout;
     w_sendto_relay := None;
     w_sendto_servfail := None |}.

(** A refresh that replaces [example.com] by [tracker.net] while the main
    thread classifies [ads.example.com]: the query arrives first, then the
    updater takes the lock, swaps the set and releases it, and only then
    does the main thread get the lock and walk the suffixes. *)
Definition swap_start : Threads.config :=
  Threads.initial {[ lit "example.com" ]} {[ lit "tracker.net" ]} ∅
    [lit "ads.example.com"].

Definition swap_schedule : list Threads.tid :=
  [Threads.Main; Threads.Updater; Threads.Main; Threads.Updater;
   Threads.Updater; Threads.Main; Threads.Updater;
   Threads.Main; Threads.Main; Threads.Main; Threads.Main; Threads.Main;
   Threads.Main; Threads.Main].

Definition swap_end : Threads.config := Threads.exec swap_schedule swap_start.

(** An allowlist file with a comment and one entry written as a URL. *)
Definition allow_fs : filesystem :=
  fun path =>
    if bool_decide (path = lit "allowlist.txt")
    then Some [lit "# my exceptions"; lit "http://www.Ads.Example.com/banner"]
    else None.

(** The listening socket fails when the relayed answer is sent back. *)
Definition client_gone_world (data : bytes) : world :=
  {| w_state := example_state;
     w_recvfrom := inr (data, client);
     w_log_write := None;
     w_sendto_sinkhole := None;
     w_socket := None;
     w_upstream_sendto := None;
     w_upstream_recvfrom := inr [Byte.xff];
     w_sendto_relay := Some OtherException;
     w_sendto_servfail := None |}.

(** No outbound socket can be created. *)
Definition no_socket_world (data : bytes) : world :=
  {| w_state := example_state;
     w_recvfrom := inr (data, client);
     w_log_write := None;
     w_sendto_sinkhole := None;
     w_socket := Some OtherException;
     w_upstream_sendto := None;
     w_upstream_recvfrom := inr [Byte.xff];
     w_sendto_relay := None;
     w_sendto_servfail := None |}.

(** ** Further definitions *)

(** The steps of [cleanup_domain] after the hosts-file test. *)
Definition cleanup_tail (domain : str) : str :=
  let domain := re_sub_scheme_www domain in
  let domain :=
    if py_contains "/" domain then hd [] (py_split_on "/" domain)
    else domain in
  py_strip_chars (lit "-.") (re_sub_non_domain_chars domain).

Definition allowlist_file : str := lit "allowlist.txt".

(** The two sets when the main block has loaded the allowlist and the
    updater thread has not yet run. *)
Definition startup (fs : filesystem) : state :=
  {| blocked_domains := ∅;
     allowed_domains := load_domains_from_file fs allowlist_file |}.

(** [blocklist_updater()]: the loop
    [while True: fetch_and_load_remote_blocklists(); time.sleep(...)], run
    for as many rounds as there are networks; the n-th network is what the
    sources serve at the n-th round. *)
Fixpoint blocklist_updater (blocklist_sources : list str)
    (rounds : list network) (st : state) : state :=
  match rounds with
  | [] => st
  | net :: rest =>
      blocklist_updater blocklist_sources rest
        (fst (fetch_and_load_remote_blocklists net blocklist_sources st))
  end.

(** A network on which every fetch fails with a 503. *)
Definition down_net : network := fun _ => Response 503 [].

(** The calls that concern the outbound socket. *)
Definition is_upstream (ev : event) : bool :=
  match ev with
  | UpstreamSocket | UpstreamSettimeout _ | UpstreamSendto _ _
  | UpstreamRecvfrom | UpstreamClose => true
  | _ => false
  end.

Definition is_close (ev : event) : bool :=
  match ev with UpstreamClose => true | _ => false end.

Definition count_events (f : event -> bool) (t : list event) : nat :=
  List.length (List.filter f t).

(** The iterations in which [socket.socket(...)] is reached and returns:
    the datagram arrives and decodes, the name is not blocked, and the
    call does not raise. *)
Definition opens_socket (parse : bytes -> option DNSRecord) (w : world)
  : bool :=
  match w_recvfrom w with
  | inr (data, _) =>
      match parse data with
      | Some request =>
          negb (is_domain_blocked (w_state w) (query_name request))
          && match w_socket w with None => true | Some _ => false end
      | None => false
      end
  | inl _ => false
  end.

(** ** The browser extension's service worker ([background.js])

    JavaScript strings are modelled like Python's, as lists of code
    points below 256.  The browser is the set of dynamic
    declarativeNetRequest rules and the value stored under
    [BLOCK_LIST_STORAGE_KEY]; each call of a browser API resolves or
    rejects as an oracle says. *)

Module Extension.

(** [String.prototype.trim] strips TAB, LF, VT, FF, CR, space and NBSP. *)
Definition js_isspace (c : ascii) : bool :=
  in_range "009" "013" c || is_char "032" c || is_char "160" c.

Definition js_trim (s : str) : str := strip_by js_isspace s.

Definition DNR_RULE_ID_OFFSET : nat := 1.

Definition resource_types : list str :=
  [lit "main_frame"; lit "sub_frame"; lit "stylesheet"; lit "script";
   lit "image"; lit "font"; lit "media"; lit "websocket";
   lit "xmlhttprequest"; lit "ping"; lit "csp_report"; lit "other"].

Record rule := {
  id : nat;
  priority : nat;
  action_type : str;
  urlFilter : str;
  resourceTypes : list str;
}.

Record browser := {
  dynamic_rules : list rule;
  stored : option (list str);
}.

(** [text.split('\n').map(line => line.trim())
        .filter(line => line.length > 0 && !line.startsWith('#'))] *)
Definition raw_domains (text : str) : list str :=
  List.filter
    (fun line => negb (match line with [] => true | _ => false end)
                 && negb (py_startswith (lit "#") line))
    (map js_trim (py_split_on "010" text)).

(** [rawDomains.map((domain, index) => ({ id: DNR_RULE_ID_OFFSET + index,
    ... urlFilter: `||${domain}^`, ... }))], the same in both functions. *)
Definition new_rules (rawDomains : list str) : list rule :=
  imap (fun index domain =>
          {| id := DNR_RULE_ID_OFFSET + index;
             priority := 1;
             action_type := lit "block";
             urlFilter := lit "||" ++ domain ++ lit "^";
             resourceTypes := resource_types |})
       rawDomains.

(** [chrome.declarativeNetRequest.updateDynamicRules({removeRuleIds,
    addRules})]: the rules with the listed ids are removed, then the new
    ones are added, in one atomic operation; the call rejects, and changes
    nothing, when two rules would share an id or when the browser refuses
    for a reason of its own ([accepts] is false). *)
Definition updateDynamicRules (accepts : bool) (removeRuleIds : list nat)
    (addRules : list rule) (b : browser) : option browser :=
  let kept :=
    List.filter (fun r => negb (bool_decide (id r ∈ removeRuleIds)))
                (dynamic_rules b) in
  let result := kept ++ addRules in
  if accepts && bool_decide (NoDup (map id result))
  then Some {| dynamic_rules := result; stored := stored b |}
  else None.

(** *** Runs of the two async functions

    A run is at one of its [await]s and holds its local variables there.
    Between two [await]s a run is not interrupted; while it waits, other
    runs take their steps.  Each step is the browser call that the run
    awaits, with its effect on the browser, up to the next [await].
    Console output is left out. *)

Inductive pc : Type :=
| FetchResponse
| FetchBody
| FetchRules (rawDomains : list str)
| FetchUpdate (rawDomains : list str) (oldRuleIds : list nat)
| FetchStore (rawDomains : list str)
| LoadStored
| LoadRules (rawDomains : list str)
| LoadUpdate (rawDomains : list str) (oldRuleIds : list nat)
| Done.

(** How the awaited call ends.  An outcome that does not fit the call
    counts as a rejection. *)
Inductive outcome : Type :=
| Rejects
| Resolves
| ResolvesResponse (ok : bool)
| ResolvesText (text : str).

Definition resolves (o : outcome) : bool :=
  match o with Resolves => true | _ => false end.

(** One step of a run.  The points [FetchResponse] to [FetchStore] are the
    five [await]s in the [try] block of [fetchAndApplyBlockList()]
    ([fetch], [response.text()], [getDynamicRules], [updateDynamicRules],
    [storage.local.set]); a rejection there, a response that is not [ok]
    included, goes to the [catch] block, which awaits
    [loadBlockListFromStorageAndApply()].  The points [LoadStored],
    [LoadRules] and [LoadUpdate] are the three [await]s of that function
    ([storage.local.get], [getDynamicRules], [updateDynamicRules]); it
    catches its own rejections and ends. *)
Definition step (o : outcome) (b : browser) (p : pc) : browser * pc :=
  match p with
  | FetchResponse =>
      match o with
      | ResolvesResponse true => (b, FetchBody)
      | _ => (b, LoadStored)
      end
  | FetchBody =>
      match o with
      | ResolvesText text => (b, FetchRules (raw_domains text))
      | _ => (b, LoadStored)
      end
  | FetchRules rawDomains =>
      if resolves o
      then (b, FetchUpdate rawDomains (map id (dynamic_rules b)))
      else (b, LoadStored)
  | FetchUpdate rawDomains oldRuleIds =>
      match updateDynamicRules (resolves o) oldRuleIds
              (new_rules rawDomains) b with
      | Some b' => (b', FetchStore rawDomains)
      | None => (b, LoadStored)
      end
  | FetchStore rawDomains =>
      if resolves o
      then ({| dynamic_rules := dynamic_rules b; stored := Some rawDomains |},
            Done)
      else (b, LoadStored)
  | LoadStored =>
      if resolves o
      then match stored b with
           | Some (d :: ds) => (b, LoadRules (d :: ds))
           | _ => (b, Done)
           end
      else (b, Done)
  | LoadRules rawDomains =>
      if resolves o
      then (b, LoadUpdate rawDomains (map id (dynamic_rules b)))
      else (b, Done)
  | LoadUpdate rawDomains oldRuleIds =>
      match updateDynamicRules (resolves o) oldRuleIds
              (new_rules rawDomains) b with
      | Some b' => (b', Done)
      | None => (b, Done)
      end
  | Done => (b, Done)
  end.

(** [fetchAndApplyBlockList()] and [loadBlockListFromStorageAndApply()]
    start at their first [await]. *)
Definition fetchAndApplyBlockList : pc := FetchResponse.
Definition loadBlockListFromStorageAndApply : pc := LoadStored.

(** A listener runs its calls one after the other: [at_pc] is where the
    current call is, [later] the calls still to make. *)
Record run := {
  at_pc : pc;
  later : list pc;
}.

(** The three listeners: [onInstalled] and [onAlarm] fetch; [onStartup]
    loads from the storage, then fetches. *)
Definition onInstalled : run :=
  {| at_pc := fetchAndApplyBlockList; later := [] |}.

Definition onStartup : run :=
  {| at_pc := loadBlockListFromStorageAndApply;
     later := [fetchAndApplyBlockList] |}.

Definition onAlarm : run :=
  {| at_pc := fetchAndApplyBlockList; later := [] |}.

(** A run inside its last call, at the point [p]. *)
Definition in_last_call (p : pc) : run := {| at_pc := p; later := [] |}.

(** When a call is done the listener goes on to its next call. *)
Definition advance (r : run) (p' : pc) : run :=
  match p', later r with
  | Done, next :: rest => {| at_pc := next; later := rest |}
  | _, _ => {| at_pc := p'; later := later r |}
  end.

(** The browser and the runs in progress. *)
Record system := {
  shared : browser;
  runs : list run;
}.

(** Run [i] takes its next step, which ends as [o] says. *)
Definition turn (i : nat) (o : outcome) (s : system) : system :=
  match runs s !! i with
  | Some r =>
      let '(b', p') := step o (shared s) (at_pc r) in
      {| shared := b'; runs := <[i := advance r p']> (runs s) |}
  | None => s
  end.

(** An interleaving: at each turn, the run that moves and how its call
    ends. *)
Fixpoint exec (schedule : list (nat * outcome)) (s : system) : system :=
  match schedule with
  | [] => s
  | (i, o) :: rest => exec rest (turn i o s)
  end.

(** The steps of other runs than [i]. *)
Definition of_others (i : nat) (schedule : list (nat * outcome)) : Prop :=
  Forall (fun jo => fst jo <> i) schedule.

(** The step of a fetching run at [p] goes to the [catch] block before
    any rule is changed: the fetch rejects or the response is not [ok],
    the body cannot be read, [getDynamicRules] rejects, or the update is
    rejected. *)
Definition fails_before_update (b : browser) (p : pc) (o : outcome) : bool :=
  match p with
  | FetchResponse =>
      match o with ResolvesResponse true => false | _ => true end
  | FetchBody =>
      match o with ResolvesText _ => false | _ => true end
  | FetchRules _ => negb (resolves o)
  | FetchUpdate rawDomains oldRuleIds =>
      match updateDynamicRules (resolves o) oldRuleIds
              (new_rules rawDomains) b with
      | Some _ => false
      | None => true
      end
  | _ => false
  end.

End Extension.

(** A list as the extension's server sends it. *)
Definition sample_list : str :=
  lit "# AdVault list
ads.example.com
   tracker.net

".

(** A browser that already holds two rules with arbitrary ids. *)
Definition cluttered_browser : Extension.browser :=
  {| Extension.dynamic_rules :=
       [{| Extension.id := 7; Extension.priority := 1;
           Extension.action_type := lit "block";
           Extension.urlFilter := lit "||old.example^";
           Extension.resourceTypes := Extension.resource_types |};
        {| Extension.id := 1; Extension.priority := 1;
           Extension.action_type := lit "block";
           Extension.urlFilter := lit "||older.example^";
           Extension.resourceTypes := Extension.resource_types |}];
     Extension.stored := None |}.

(** Two alarms fire while the rules of a three-entry list are in place;
    the first run has fetched five entries, the second two, and both are
    about to read the current rules. *)
Definition overlapping_runs : Extension.system :=
  {| Extension.shared :=
       {| Extension.dynamic_rules :=
            Extension.new_rules [lit "a.example"; lit "b.example";
                                 lit "c.example"];
          Extension.stored :=
            Some [lit "a.example"; lit "b.example"; lit "c.example"] |};
     Extension.runs :=
       [Extension.in_last_call
          (Extension.FetchRules
             [lit "f1.example"; lit "f2.example"; lit "f3.example";
              lit "f4.example"; lit "f5.example"]);
        Extension.in_last_call
          (Extension.FetchRules [lit "s1.example"; lit "s2.example"])] |}.

(** One listener has just been started on a browser with arbitrary rules
    and a stored list. *)
Definition one_run (b : Extension.browser) (r : Extension.run)
  : Extension.system :=
  {| Extension.shared := b; Extension.runs := [r] |}.

Definition stored_browser : Extension.browser :=
  {| Extension.dynamic_rules := Extension.new_rules [lit "old.example"];
     Extension.stored := Some [lit "old.example"] |}.

(** Two runs on a browser with arbitrary rules: the first has fetched
    [sample_list] and is about to read the rules, the second has not
    fetched yet. *)
Definition overlapping_runs_start : Extension.system :=
  {| Extension.shared := cluttered_browser;
     Extension.runs :=
       [Extension.in_last_call
          (Extension.FetchRules [lit "ads.example.com"; lit "tracker.net"]);
        Extension.onAlarm] |}.

(** * Properties *)

(** ** Characters *)

Ltac by_char c :=
  destruct c as [[] [] [] [] [] [] [] []]; vm_compute; (reflexivity || congruence || intuition congruence).

Lemma is_char_eq x c : is_char x c = true <-> c = x.
Proof.
  unfold is_char. rewrite N.eqb_eq. split; [|congruence].
  intros H. rewrite <- (ascii_N_embedding c), <- (ascii_N_embedding x).
  congruence.
Qed.

Lemma is_char_refl x : is_char x x = true.
Proof. by apply is_char_eq. Qed.

Lemma domain_char_not_space c : is_domain_char c = true -> py_isspace c = false.
Proof. by_char c. Qed.

Lemma domain_char_lower c : is_domain_char c = true -> py_lower_char c = c.
Proof. by_char c. Qed.

Lemma lower_hash c : is_char "#" c = true -> is_char "#" (py_lower_char c) = true.
Proof. by_char c. Qed.

(** ** Stripping *)

Section Strip.
Variable p : ascii -> bool.

Lemma lstrip_by_split (s : str) :
  exists a, s = a ++ lstrip_by p s /\ Forall (fun c => p c = true) a.
Proof.
  induction s as [|c s [a [Hs Ha]]]; simpl.
  - exists []. split; [reflexivity | constructor].
  - destruct (p c) eqn:Hc.
    + exists (c :: a). split; [simpl; congruence | by constructor].
    + exists []. split; [reflexivity | constructor].
Qed.

Lemma lstrip_by_head (s : str) c :
  head (lstrip_by p s) = Some c -> p c = false.
Proof.
  induction s as [|x s IH]; simpl; [discriminate|].
  destruct (p x) eqn:Hx; [exact IH|].
  simpl. intros [= <-]. exact Hx.
Qed.

Lemma lstrip_by_all (s : str) :
  Forall (fun c => p c = true) s -> lstrip_by p s = [].
Proof.
  induction 1 as [|c s Hc _ IH]; simpl; [reflexivity|]. by rewrite Hc.
Qed.

Lemma lstrip_by_id (s : str) :
  (forall c, head s = Some c -> p c = false) -> lstrip_by p s = s.
Proof.
  destruct s as [|c s]; simpl; [reflexivity|].
  intros H. by rewrite (H c eq_refl).
Qed.

Lemma head_rev (s : str) : head (rev s) = last s.
Proof.
  induction s as [|c s IH] using rev_ind; [reflexivity|].
  by rewrite rev_app_distr, last_snoc.
Qed.

Lemma last_rev (s : str) : last (rev s) = head s.
Proof. by rewrite <- head_rev, rev_involutive. Qed.

Lemma rstrip_by_split (s : str) :
  exists b, s = rstrip_by p s ++ b /\ Forall (fun c => p c = true) b.
Proof.
  unfold rstrip_by.
  destruct (lstrip_by_split (rev s)) as [a [Hs Ha]].
  exists (rev a). split.
  - rewrite <- rev_app_distr, <- Hs. by rewrite rev_involutive.
  - apply Forall_forall. intros c Hc.
    rewrite Forall_forall in Ha. apply Ha.
    apply list_elem_of_In. apply list_elem_of_In in Hc.
    by apply in_rev.
Qed.

Lemma rstrip_by_last (s : str) c :
  last (rstrip_by p s) = Some c -> p c = false.
Proof. unfold rstrip_by. rewrite last_rev. apply lstrip_by_head. Qed.

Lemma rstrip_by_id (s : str) :
  (forall c, last s = Some c -> p c = false) -> rstrip_by p s = s.
Proof.
  intros H. unfold rstrip_by. rewrite lstrip_by_id.
  - apply rev_involutive.
  - intros c. rewrite head_rev. apply H.
Qed.

Lemma strip_by_split (s : str) :
  exists a b, s = a ++ strip_by p s ++ b
              /\ Forall (fun c => p c = true) a
              /\ Forall (fun c => p c = true) b.
Proof.
  unfold strip_by.
  destruct (lstrip_by_split s) as [a [Hs Ha]].
  destruct (rstrip_by_split (lstrip_by p s)) as [b [Hs' Hb]].
  exists a, b. split; [|by split]. by rewrite <- Hs'.
Qed.

Lemma strip_by_last (s : str) c :
  last (strip_by p s) = Some c -> p c = false.
Proof. apply rstrip_by_last. Qed.

Lemma strip_by_head (s : str) c :
  head (strip_by p s) = Some c -> p c = false.
Proof.
  unfold strip_by.
  destruct (rstrip_by_split (lstrip_by p s)) as [b [Hs _]].
  intros H. apply (lstrip_by_head s). rewrite Hs.
  destruct (rstrip_by p (lstrip_by p s)); [discriminate | exact H].
Qed.

Lemma strip_by_all (s : str) :
  Forall (fun c => p c = true) s -> strip_by p s = [].
Proof. intros H. unfold strip_by. by rewrite lstrip_by_all. Qed.

Lemma strip_by_id (s : str) :
  (forall c, head s = Some c -> p c = false) ->
  (forall c, last s = Some c -> p c = false) ->
  strip_by p s = s.
Proof.
  intros Hh Hl. unfold strip_by. rewrite lstrip_by_id by exact Hh.
  by apply rstrip_by_id.
Qed.

Lemma strip_by_Forall (P : ascii -> Prop) (s : str) :
  Forall P s -> Forall P (strip_by p s).
Proof.
  intros H. destruct (strip_by_split s) as [a [b [Hs _]]].
  rewrite Hs in H.
  apply Forall_app in H as [_ H]. by apply Forall_app in H as [H _].
Qed.
End Strip.

(** ** Lowercasing, splitting and prefixes on domain characters *)

Lemma py_lower_domain_chars (s : str) :
  Forall (fun c => is_domain_char c = true) s -> py_lower s = s.
Proof.
  induction 1 as [|c s Hc _ IH]; simpl; [reflexivity|].
  by rewrite domain_char_lower, IH.
Qed.

Lemma py_split_go_no_space (s : str) : forall cur,
  Forall (fun c => py_isspace c = false) s ->
  py_split_go cur s = match rev cur ++ s with [] => [] | w => [w] end.
Proof.
  induction s as [|c s IH]; intros cur H; simpl.
  - rewrite app_nil_r. destruct cur as [|x cur]; [reflexivity|].
    simpl. destruct (rev cur ++ [x]) eqn:E; [|reflexivity].
    by destruct (rev cur).
  - inversion H as [|? ? Hc Hs]; subst. rewrite Hc.
    rewrite IH by exact Hs. simpl. by rewrite <- app_assoc.
Qed.

Lemma py_split_single (s : str) :
  s <> [] -> Forall (fun c => py_isspace c = false) s -> py_split s = [s].
Proof.
  intros Hne H. unfold py_split. rewrite py_split_go_no_space by exact H.
  simpl. by destruct s.
Qed.

Lemma strip_prefix_Some (p s r : str) :
  strip_prefix p s = Some r -> s = p ++ r.
Proof.
  revert s. induction p as [|x p IH]; intros s; simpl.
  - by intros [= ->].
  - destruct s as [|c s]; [discriminate|].
    destruct (is_char x c) eqn:E; [|discriminate].
    apply is_char_eq in E as ->. intros H. by rewrite (IH _ H).
Qed.

Lemma strip_prefix_app (p r : str) : strip_prefix p (p ++ r) = Some r.
Proof.
  induction p as [|x p IH]; simpl; [reflexivity|]. by rewrite is_char_refl.
Qed.

Lemma strip_prefix_domain_chars (p s : str) :
  forallb is_domain_char p = false ->
  Forall (fun c => is_domain_char c = true) s ->
  strip_prefix p s = None.
Proof.
  intros Hp Hs. destruct (strip_prefix p s) as [r|] eqn:E; [|reflexivity].
  apply strip_prefix_Some in E. subst s.
  apply Forall_app in Hs as [Hs _].
  assert (forallb is_domain_char p = true); [|congruence].
  apply forallb_forall. intros c Hc. rewrite Forall_forall in Hs.
  apply Hs. by apply list_elem_of_In.
Qed.

Lemma py_contains_domain_chars (x : ascii) (s : str) :
  is_domain_char x = false ->
  Forall (fun c => is_domain_char c = true) s ->
  py_contains x s = false.
Proof.
  intros Hx. induction 1 as [|c s Hc _ IH]; simpl; [reflexivity|].
  rewrite IH, orb_false_r.
  destruct (is_char x c) eqn:E; [|reflexivity].
  apply is_char_eq in E. congruence.
Qed.

Lemma filter_domain_chars (s : str) :
  Forall (fun c => is_domain_char c = true) s ->
  re_sub_non_domain_chars s = s.
Proof.
  unfold re_sub_non_domain_chars.
  induction 1 as [|c s Hc _ IH]; simpl; [reflexivity|].
  by rewrite Hc, IH.
Qed.

Lemma filter_is_domain_chars (s : str) :
  Forall (fun c => is_domain_char c = true) (re_sub_non_domain_chars s).
Proof.
  unfold re_sub_non_domain_chars. apply Forall_forall. intros c Hc.
  apply list_elem_of_In, filter_In in Hc. tauto.
Qed.

(** ** [cleanup_domain] *)

(** Every result of [cleanup_domain] is in canonical form. *)
Lemma cleanup_domain_canonical (line : str) : canonical (cleanup_domain line).
Proof.
  assert (Hnil : canonical []).
  { repeat split; [constructor | discriminate | discriminate]. }
  unfold cleanup_domain.
  match goal with |- canonical (if ?b then _ else _) => destruct b end;
    [exact Hnil|].
  cbv zeta. unfold py_strip_chars.
  match goal with |- canonical (strip_by _ (re_sub_non_domain_chars ?x)) =>
    generalize x end.
  intros s.
  assert (H : Forall (fun c => is_domain_char c = true)
                (strip_by (char_in (lit "-.")) (re_sub_non_domain_chars s))).
  { apply strip_by_Forall, filter_is_domain_chars. }
  repeat split.
  - exact H.
  - by apply py_lower_domain_chars.
  - apply strip_by_head.
  - apply strip_by_last.
Qed.

(** On a Domain, every step before the [www.] removal is the identity. *)
Lemma cleanup_domain_on_domain (d : str) :
  Domain d ->
  cleanup_domain d =
  py_strip_chars (lit "-.")
    match strip_prefix (lit "www.") d with Some r => r | None => d end.
Proof.
  intros [Hne (Hchars & Hlow & Hhead & Hlast)].
  assert (Hsp : Forall (fun c => py_isspace c = false) d).
  { eapply Forall_impl; [exact Hchars|]. apply domain_char_not_space. }
  assert (Hstrip : py_strip d = d).
  { apply strip_by_id; intros c Hc.
    - apply head_Some_elem_of in Hc. rewrite Forall_forall in Hsp. by apply Hsp.
    - apply last_Some_elem_of in Hc. rewrite Forall_forall in Hsp. by apply Hsp. }
  assert (Hhash : py_startswith (lit "#") d = false).
  { unfold py_startswith.
    by rewrite (strip_prefix_domain_chars (lit "#") d). }
  assert (Hnil : match d with [] => true | _ => false end = false)
    by (destruct d; congruence).
  unfold cleanup_domain. rewrite Hstrip, Hlow, Hhash, Hnil.
  simpl orb. cbv iota zeta.
  rewrite py_split_single by trivial.
  assert (Hsub : re_sub_scheme_www d =
                 match strip_prefix (lit "www.") d with
                 | Some r => r | None => d end).
  { unfold re_sub_scheme_www.
    rewrite (strip_prefix_domain_chars (lit "https://") d) by done.
    by rewrite (strip_prefix_domain_chars (lit "http://") d) by done. }
  rewrite Hsub.
  set (r := match strip_prefix (lit "www.") d with
            | Some r => r | None => d end).
  assert (Hr : Forall (fun c => is_domain_char c = true) r).
  { subst r. destruct (strip_prefix (lit "www.") d) as [r|] eqn:Er; [|done].
    apply strip_prefix_Some in Er. rewrite Er in Hchars.
    by apply Forall_app in Hchars as [_ ?]. }
  rewrite (py_contains_domain_chars "/" r) by done.
  by rewrite (filter_domain_chars r) by done.
Qed.

(** A Domain that does not begin with [www.] is left as it is. *)
Lemma cleanup_domain_fixed (d : str) :
  Domain d -> py_startswith (lit "www.") d = false -> cleanup_domain d = d.
Proof.
  intros Hd Hwww. rewrite cleanup_domain_on_domain by exact Hd.
  unfold py_startswith in Hwww.
  destruct (strip_prefix (lit "www.") d); [discriminate|].
  destruct Hd as [_ (_ & _ & Hhead & Hlast)].
  unfold py_strip_chars. by apply strip_by_id.
Qed.

(** When a Domain begins with [www.], a further pass removes that prefix,
    so it is not a fixed point. *)
Lemma cleanup_domain_www_not_fixed (d : str) :
  Domain d -> py_startswith (lit "www.") d = true -> cleanup_domain d <> d.
Proof.
  intros Hd Hwww Heq. rewrite cleanup_domain_on_domain in Heq by exact Hd.
  unfold py_startswith in Hwww.
  destruct (strip_prefix (lit "www.") d) as [r|] eqn:Er; [|discriminate].
  apply strip_prefix_Some in Er.
  destruct (strip_by_split (char_in (lit "-.")) r) as [a [b [Hs _]]].
  unfold py_strip_chars in Heq. rewrite Heq in Hs.
  apply (f_equal (@List.length ascii)) in Er, Hs.
  rewrite !length_app in *. simpl in Er. lia.
Qed.

(** ** Loading and refreshing the sets *)

Lemma elem_of_add_lines (lines : list str) : forall (domains : gset str) (d : str),
  d ∈ add_lines lines domains <->
  d ∈ domains \/ exists line, line ∈ lines /\ cleanup_domain line = d /\ d <> [].
Proof.
  induction lines as [|l lines IH]; intros domains d; simpl.
  - split; [by left|]. intros [H|(line & Hin & _)]; [done|].
    by apply not_elem_of_nil in Hin.
  - rewrite IH. split.
    + intros [H|(line & Hin & Hc & Hne)].
      * destruct (cleanup_domain l) as [|c r] eqn:E; [by left|].
        apply elem_of_union in H as [H|H]; [by left|].
        apply elem_of_singleton in H. right. exists l.
        split; [by left|]. split; [congruence|]. by subst d.
      * right. exists line. split; [by right | by split].
    + intros [H|(line & Hin & Hc & Hne)].
      * left. destruct (cleanup_domain l); [done|].
        apply elem_of_union; by left.
      * apply elem_of_cons in Hin as [->|Hin].
        -- left. rewrite Hc. destruct d as [|c r]; [done|].
           apply elem_of_union; right. by apply elem_of_singleton.
        -- right. exists line. by split.
Qed.

Lemma elem_of_fetch_source (net : network) (url : str) (temp : gset str)
    (d : str) :
  d ∈ fst (fetch_source net url temp) <->
  d ∈ temp \/ exists text line,
      fetched net url = Some text /\ line ∈ py_splitlines text
      /\ cleanup_domain line = d /\ d <> [].
Proof.
  unfold fetch_source, fetched.
  destruct (net url) as [code text| | |]; simpl.
  - destruct (raise_for_status code); simpl.
    + split; [by left|]. by intros [H|(? & ? & [=] & _)].
    + rewrite elem_of_add_lines. split.
      * intros [H|(line & Hin & Hc & Hne)]; [by left|].
        right. by exists text, line.
      * intros [H|(t & line & [= <-] & Hin & Hc & Hne)]; [by left|].
        right. by exists line.
  - split; [by left|]. by intros [H|(? & ? & [=] & _)].
  - split; [by left|]. by intros [H|(? & ? & [=] & _)].
  - split; [by left|]. by intros [H|(? & ? & [=] & _)].
Qed.

Lemma elem_of_fetch_sources (net : network) (urls : list str) :
  forall (temp : gset str) (d : str),
  d ∈ fst (fetch_sources net urls temp) <->
  d ∈ temp \/ produced_by net urls d.
Proof.
  induction urls as [|url urls IH]; intros temp d; simpl.
  - split; [by left|]. intros [H|(u & _ & _ & Hin & _)]; [done|].
    by apply not_elem_of_nil in Hin.
  - pose proof (elem_of_fetch_source net url temp d) as Hone.
    destruct (fetch_source net url temp) as [temp' l]. simpl in Hone.
    specialize (IH temp' d).
    destruct (fetch_sources net urls temp') as [final ls]. simpl in *.
    rewrite IH, Hone. unfold produced_by. split.
    + intros [[H|(text & line & Hf & Hin & Hc & Hne)]
             |(u & text & line & Hu & Hf & Hin & Hc & Hne)].
      * by left.
      * right. exists url, text, line. split; [by left | done].
      * right. exists u, text, line. split; [by right | done].
    + intros [H|(u & text & line & Hu & Hf & Hin & Hc & Hne)].
      * by left; left.
      * apply elem_of_cons in Hu as [->|Hu].
        -- left; right. by exists text, line.
        -- right. by exists u, text, line.
Qed.

(** After a refresh the blocklist is exactly what the fetched sources
    produce. *)
Lemma elem_of_refreshed (net : network) (urls : list str) (st : state)
    (d : str) :
  d ∈ blocked_domains (fst (fetch_and_load_remote_blocklists net urls st))
  <-> produced_by net urls d.
Proof.
  unfold fetch_and_load_remote_blocklists.
  pose proof (elem_of_fetch_sources net urls ∅ d) as H.
  destruct (fetch_sources net urls ∅) as [temp logs]. simpl in *.
  rewrite elem_of_union, H. split.
  - intros [Hc|[He|Hp]]; [|done..].
    by apply not_elem_of_empty in Hc.
  - intros Hp. by right; right.
Qed.

Lemma refresh_keeps_allowed (net : network) (urls : list str) (st : state) :
  allowed_domains (fst (fetch_and_load_remote_blocklists net urls st))
  = allowed_domains st.
Proof.
  unfold fetch_and_load_remote_blocklists.
  by destruct (fetch_sources net urls ∅).
Qed.

(** ** The normaliser: claims C7, C8 and C3 *)

Example cleanup_hosts_line :
  cleanup_domain (lit "0.0.0.0 example.com") = lit "example.com".
Proof. by vm_compute. Qed.

Example cleanup_url :
  cleanup_domain (lit "http://www.example.com/path") = lit "example.com".
Proof. by vm_compute. Qed.

Example cleanup_filter_rule :
  cleanup_domain (lit "||Ads.Example.com^$third-party")
  = lit "ads.example.comthird-party".
Proof. by vm_compute. Qed.

(** C7.  A raw line that is empty, whitespace only, or whose trimmed form
    begins with the comment marker [#] is rejected: [cleanup_domain]
    returns the empty string. *)
Theorem cleanup_domain_rejects_blank_and_comment (line : str) :
  line = [] \/ blank line \/ comment line -> cleanup_domain line = [].
Proof.
  intros H.
  assert (Hcases : py_strip line = [] \/ comment line).
  { destruct H as [->|[H|H]]; [by left | | by right].
    left. by apply strip_by_all. }
  unfold cleanup_domain. destruct Hcases as [->|Hc]; [reflexivity|].
  unfold comment, py_startswith in Hc.
  destruct (py_strip line) as [|c r]; [discriminate|].
  simpl in Hc. destruct (is_char "#" c) eqn:E; [|discriminate].
  simpl. unfold py_startswith. simpl. by rewrite lower_hash.
Qed.

Lemma cleanup_domain_rejects_witness :
  comment (lit "   # Title: ad servers")
  /\ cleanup_domain (lit "   # Title: ad servers") = [].
Proof.
  split; [reflexivity|].
  apply (cleanup_domain_rejects_blank_and_comment
           (lit "   # Title: ad servers")).
  right. right. reflexivity.
Defined.

(** C8.  Every non-empty result of [cleanup_domain] is a Domain in
    canonical form (lowercase, characters of [[a-z0-9.-]] only, no [.] or
    [-] at either end), and so is every member that
    [load_domains_from_file] puts into the allowlist and every member that
    a refresh puts into the blocklist. *)
Theorem members_are_canonical :
  (forall line, cleanup_domain line <> [] -> Domain (cleanup_domain line))
  /\ (forall (fs : filesystem) (path d : str),
        d ∈ load_domains_from_file fs path -> Domain d)
  /\ (forall (net : network) (urls : list str) (st : state) (d : str),
        d ∈ blocked_domains
              (fst (fetch_and_load_remote_blocklists net urls st)) ->
        Domain d).
Proof.
  split; [|split].
  - intros line Hne. split; [exact Hne | apply cleanup_domain_canonical].
  - intros fs path d. unfold load_domains_from_file.
    destruct (fs path) as [lines|].
    + rewrite elem_of_add_lines.
      intros [H|(line & _ & <- & Hne)]; [by apply not_elem_of_empty in H|].
      split; [exact Hne | apply cleanup_domain_canonical].
    + intros H. by apply not_elem_of_empty in H.
  - intros net urls st d. rewrite elem_of_refreshed.
    intros (url & text & line & _ & _ & _ & <- & Hne).
    split; [exact Hne | apply cleanup_domain_canonical].
Qed.

Lemma members_are_canonical_witness :
  Domain (cleanup_domain (lit "0.0.0.0 Ads.Example.com"))
  /\ Domain (lit "ads.example.com").
Proof.
  destruct members_are_canonical as (Hline & _ & Hset). split.
  - apply Hline. by vm_compute.
  - apply (Hset hosts_net
             [lit "https://someonewhocares.org/hosts/hosts"] empty_state).
    by vm_compute.
Defined.

(** C3, as stated: idempotence at [x] whenever [cleanup_domain x] is not
    empty. *)
Definition idempotent_at (x : str) : Prop :=
  cleanup_domain x <> [] ->
  cleanup_domain (cleanup_domain x) = cleanup_domain x.

(** The input [www.www.example.com] normalises to [www.example.com], which
    normalises to [example.com]: the pattern removes one [www.] per pass. *)
Lemma cleanup_domain_not_idempotent :
  ~ idempotent_at (lit "www.www.example.com").
Proof.
  unfold idempotent_at. intros H.
  assert (Hne : cleanup_domain (lit "www.www.example.com") <> [])
    by (by vm_compute).
  specialize (H Hne). vm_compute in H. discriminate H.
Qed.

(** C3, amended.  [cleanup_domain] is idempotent at every input whose
    non-empty result does not begin with [www.]. *)
Theorem cleanup_domain_idempotent_unless_www (x : str) :
  cleanup_domain x <> [] ->
  py_startswith (lit "www.") (cleanup_domain x) = false ->
  cleanup_domain (cleanup_domain x) = cleanup_domain x.
Proof.
  intros Hne Hwww. apply cleanup_domain_fixed; [|exact Hwww].
  split; [exact Hne | apply cleanup_domain_canonical].
Qed.

Lemma cleanup_domain_idempotent_witness :
  cleanup_domain (cleanup_domain (lit "http://www.Example.com/path"))
  = cleanup_domain (lit "http://www.Example.com/path").
Proof.
  apply (cleanup_domain_idempotent_unless_www
           (lit "http://www.Example.com/path")).
  - by vm_compute.
  - reflexivity.
Defined.

(** The side condition of the amended C3 is the exact one: a non-empty
    result that begins with [www.] is never a fixed point. *)
Lemma cleanup_domain_www_changes (x : str) :
  cleanup_domain x <> [] ->
  py_startswith (lit "www.") (cleanup_domain x) = true ->
  cleanup_domain (cleanup_domain x) <> cleanup_domain x.
Proof.
  intros Hne Hwww. apply cleanup_domain_www_not_fixed; [|exact Hwww].
  split; [exact Hne | apply cleanup_domain_canonical].
Qed.

(** ** Splitting on dots and the suffix walk *)

Lemma py_split_on_nonempty sep (s : str) : py_split_on sep s <> [].
Proof.
  destruct s as [|c s]; simpl; [discriminate|].
  destruct (is_char sep c); [discriminate|].
  by destruct (py_split_on sep s).
Qed.

Lemma py_split_on_app sep (p d : str) :
  py_split_on sep (p ++ sep :: d) = py_split_on sep p ++ py_split_on sep d.
Proof.
  induction p as [|c p IH]; simpl.
  - by rewrite is_char_refl.
  - rewrite IH. destruct (is_char sep c); [reflexivity|].
    pose proof (py_split_on_nonempty sep p).
    by destruct (py_split_on sep p).
Qed.

Lemma py_join_split sep (s : str) : py_join [sep] (py_split_on sep s) = s.
Proof.
  induction s as [|c s IH]; simpl; [reflexivity|].
  pose proof (py_split_on_nonempty sep s) as Hne.
  destruct (is_char sep c) eqn:E.
  - apply is_char_eq in E as ->.
    destruct (py_split_on sep s) as [|x xs]; [done|].
    simpl in *. by rewrite IH.
  - destruct (py_split_on sep s) as [|x xs]; [done|].
    destruct xs as [|y ys]; simpl in *; by rewrite <- IH.
Qed.

Lemma suffix_candidates_drop (parts : list str) (i : nat) :
  i < List.length parts ->
  py_join (lit ".") (drop i parts) ∈ suffix_candidates parts.
Proof.
  intros Hi. unfold suffix_candidates.
  apply list_elem_of_In, in_map_iff. exists i. split; [reflexivity|].
  apply in_seq. lia.
Qed.

(** A name that ends with a dot followed by [d] has [d] among the
    candidates of the walk. *)
Lemma suffix_candidates_ends_with_dot (d n : str) :
  ends_with_dot d n -> d ∈ suffix_candidates (py_split_on "." n).
Proof.
  intros [p ->]. change (lit "." ++ d) with ("."%char :: d).
  rewrite py_split_on_app.
  rewrite <- (py_join_split "." d) at 1.
  replace (py_split_on "." d)
    with (drop (List.length (py_split_on "." p))
               (py_split_on "." p ++ py_split_on "." d)) at 1
    by apply drop_app_length.
  apply suffix_candidates_drop. rewrite length_app.
  pose proof (py_split_on_nonempty "." d).
  destruct (py_split_on "." d); [done|]. simpl. lia.
Qed.

Lemma in_set_true (x : str) (s : gset str) : in_set x s = true <-> x ∈ s.
Proof. unfold in_set. apply bool_decide_eq_true. Qed.

Lemma in_set_false (x : str) (s : gset str) : in_set x s = false <-> x ∉ s.
Proof. unfold in_set. apply bool_decide_eq_false. Qed.

(** What [is_domain_blocked] computes: the cleaned name is not allowlisted
    and it, or one of its right-aligned label suffixes of any length, is in
    the blocklist. *)
Lemma is_domain_blocked_true (st : state) (name : str) :
  is_domain_blocked st name = true <->
  (cleanup_domain name ∉ allowed_domains st)
  /\ (cleanup_domain name ∈ blocked_domains st
      \/ exists cand,
           cand ∈ suffix_candidates (py_split_on "." (cleanup_domain name))
           /\ cand ∈ blocked_domains st).
Proof.
  unfold is_domain_blocked.
  destruct (in_set (cleanup_domain name) (allowed_domains st)) eqn:Ea.
  - apply in_set_true in Ea. split; [discriminate | tauto].
  - apply in_set_false in Ea.
    destruct (in_set (cleanup_domain name) (blocked_domains st)) eqn:Eb.
    + apply in_set_true in Eb. tauto.
    + apply in_set_false in Eb. rewrite existsb_exists. split.
      * intros (cand & Hin & Hb). split; [exact Ea|]. right.
        exists cand. split; [by apply list_elem_of_In | by apply in_set_true].
      * intros [_ [H|(cand & Hin & Hb)]]; [done|].
        exists cand. split; [by apply list_elem_of_In | by apply in_set_true].
Qed.

(** ** The classifier: claims C1 and C2 *)

(** With [example.com] blocked and [safe.example.com] allowlisted, the
    query [x.safe.example.com] has an allowlisted intermediate suffix, so
    C1 as stated asks for ALLOW; [is_domain_blocked] looks up only the
    whole cleaned name in the allowlist and returns BLOCK. *)
Lemma allowlisted_suffix_is_not_inherited :
  lit "example.com" ∈ blocked_domains allow_sub_state
  /\ ends_with_dot (lit "example.com") (lit "x.safe.example.com")
  /\ ~ inheritance_as_stated allow_sub_state
         (lit "example.com") (lit "x.safe.example.com").
Proof.
  split; [by vm_compute|]. split; [by exists (lit "x.safe")|].
  intros [Hallow _].
  assert (Hc : classify allow_sub_state (lit "x.safe.example.com") = ALLOW).
  { apply Hallow. exists (lit "safe.example.com"). split; [|split].
    - right. by exists (lit "x").
    - by exists (lit "safe").
    - by vm_compute. }
  vm_compute in Hc. discriminate Hc.
Qed.

(** The suffix has to be one of the cleaned name: a raw string can end
    with a dot followed by a blocked domain and lose that ending when it is
    cleaned (here at the first slash), and is then allowed. *)
Lemma raw_suffix_is_not_inherited :
  ends_with_dot (lit "example.com") (lit "cdn.net/a.example.com")
  /\ cleanup_domain (lit "cdn.net/a.example.com") = lit "cdn.net"
  /\ classify example_state (lit "cdn.net/a.example.com") = ALLOW.
Proof.
  split; [by exists (lit "cdn.net/a")|]. split; by vm_compute.
Qed.

(** C1, amended.  For every [d] in the blocklist and every string [s]
    whose cleaned form ends with a dot followed by [d], the decision is
    BLOCK, unless the cleaned form of [s] itself is in the allowlist, in
    which case it is ALLOW. *)
Theorem subdomain_inherits_block (st : state) (d s : str) :
  d ∈ blocked_domains st ->
  ends_with_dot d (cleanup_domain s) ->
  classify st s =
  if in_set (cleanup_domain s) (allowed_domains st) then ALLOW else BLOCK.
Proof.
  intros Hd Hs. unfold classify.
  destruct (in_set (cleanup_domain s) (allowed_domains st)) eqn:Ea.
  - unfold is_domain_blocked. by rewrite Ea.
  - assert (H : is_domain_blocked st s = true); [|by rewrite H].
    apply is_domain_blocked_true. split; [by apply in_set_false|].
    right. exists d. split; [|exact Hd].
    by apply suffix_candidates_ends_with_dot.
Qed.

Lemma subdomain_inherits_block_witness :
  classify allow_sub_state (lit "Ads.Example.com.") = BLOCK
  /\ classify allow_sub_state (lit "safe.example.com") = ALLOW.
Proof.
  split.
  - apply (subdomain_inherits_block allow_sub_state (lit "example.com")
             (lit "Ads.Example.com.")).
    + by vm_compute.
    + by exists (lit "ads").
  - apply (subdomain_inherits_block allow_sub_state (lit "example.com")
             (lit "safe.example.com")).
    + by vm_compute.
    + by exists (lit "safe").
Defined.

(** C2.  With [localhost] in the blocklist (the hosts-file line
    [127.0.0.1 localhost] puts it there) and the query [app.localhost]:
    the cleaned name is neither allowlisted nor an exact member, and it has
    no suffix of two or more labels in the blocklist, so the walk of the
    specification answers ALLOW; the loop of [is_domain_blocked] runs
    [i] up to the last label, tests the single label [localhost], and
    answers BLOCK.  It also visits the candidates longest first. *)
Theorem single_label_suffix_blocks :
  (cleanup_domain (lit "app.localhost") ∉ allowed_domains localhost_state)
  /\ (cleanup_domain (lit "app.localhost") ∉ blocked_domains localhost_state)
  /\ suffix_candidates (py_split_on "." (lit "a.b.c.d"))
     = [lit "a.b.c.d"; lit "b.c.d"; lit "c.d"; lit "d"]
  /\ spec_candidates (py_split_on "." (lit "a.b.c.d"))
     = [lit "c.d"; lit "b.c.d"; lit "a.b.c.d"]
  /\ classify_spec localhost_state (lit "app.localhost") = ALLOW
  /\ deciding_candidate localhost_state (lit "app.localhost")
     = Some (lit "localhost")
  /\ classify localhost_state (lit "app.localhost") = BLOCK.
Proof.
  split; [by vm_compute|]. split; [by vm_compute|].
  repeat split; by vm_compute.
Qed.

(** ** The refresh: claim C5 *)

Lemma fetch_source_logs_failure (net : network) (url : str) (temp : gset str) :
  fetch_fails net url ->
  fst (fetch_source net url temp) = temp
  /\ failure_logged url [snd (fetch_source net url temp)].
Proof.
  unfold fetch_fails, fetched, fetch_source, failure_logged.
  destruct (net url) as [code text| | |].
  - destruct (raise_for_status code); [|discriminate].
    intros _. split; [reflexivity|]. right; left. by apply list_elem_of_here.
  - intros _. split; [reflexivity|]. left. by apply list_elem_of_here.
  - intros _. split; [reflexivity|]. right; left. by apply list_elem_of_here.
  - intros _. split; [reflexivity|]. right; right. by apply list_elem_of_here.
Qed.

Lemma failure_logged_mono (url : str) (l1 l2 : list log_line) :
  (forall x, x ∈ l1 -> x ∈ l2) -> failure_logged url l1 -> failure_logged url l2.
Proof. unfold failure_logged. intros H [?|[?|?]]; auto. Qed.

Lemma fetch_sources_logs_failures (net : network) (urls : list str) :
  forall (temp : gset str) (url : str),
  url ∈ urls -> fetch_fails net url ->
  failure_logged url (snd (fetch_sources net urls temp)).
Proof.
  induction urls as [|u urls IH]; intros temp url Hin Hfail.
  - by apply not_elem_of_nil in Hin.
  - simpl.
    pose proof (fetch_source_logs_failure net u temp) as Hone.
    destruct (fetch_source net u temp) as [temp' l]. simpl in Hone.
    specialize (IH temp' url).
    destruct (fetch_sources net urls temp') as [final ls]. simpl in *.
    apply elem_of_cons in Hin as [->|Hin].
    + destruct (Hone Hfail) as [_ Hlog].
      eapply failure_logged_mono; [|exact Hlog].
      intros x Hx. apply list_elem_of_singleton in Hx as ->. by left.
    + eapply failure_logged_mono; [|exact (IH Hin Hfail)].
      intros x Hx. by right.
Qed.

(** C5.  Whatever sources fail (the fetch raises, times out, or returns a
    4xx or 5xx status), the refresh returns; afterwards [blocked_domains]
    is exactly the set of non-empty [cleanup_domain] results over the lines
    of the sources that were fetched, whatever the set held before; the
    allowlist is untouched; and every failing source has its error line in
    the output. *)
Theorem refresh_survives_failed_sources
    (net : network) (urls : list str) (st : state) :
  exists st' logs,
    fetch_and_load_remote_blocklists net urls st = (st', logs)
    /\ (forall d, d ∈ blocked_domains st' <-> produced_by net urls d)
    /\ allowed_domains st' = allowed_domains st
    /\ (forall url, url ∈ urls -> fetch_fails net url ->
                    failure_logged url logs).
Proof.
  pose proof (fun d => elem_of_refreshed net urls st d) as Hmem.
  pose proof (refresh_keeps_allowed net urls st) as Hallow.
  pose proof (fetch_sources_logs_failures net urls ∅) as Hlogs.
  unfold fetch_and_load_remote_blocklists in *.
  destruct (fetch_sources net urls ∅) as [temp ls]. simpl in *.
  eexists _, _. split; [reflexivity|]. simpl.
  split; [exact Hmem|]. split; [reflexivity|].
  intros url Hin Hfail.
  eapply failure_logged_mono; [|exact (Hlogs url Hin Hfail)].
  intros x Hx. right. apply elem_of_app. by left.
Qed.

(** One source of two answers 500: the refresh returns, the stale entry is
    gone, and the set holds what the other source lists. *)
Example refresh_with_a_500 :
  blocked_domains
    (fst (fetch_and_load_remote_blocklists hosts_net
            [lit "http://185.107.97.246/AdVault/list.txt";
             lit "https://someonewhocares.org/hosts/hosts"]
            {| blocked_domains := {[ lit "stale.example" ]};
               allowed_domains := ∅ |}))
  = {[ lit "localhost"; lit "ads.example.com" ]}.
Proof. by vm_compute. Qed.

(** ** The relay loop: claims C9, C10 and C6 *)

(** An iteration of the loop never raises: the outer [except Exception]
    takes whatever the body raises. *)
Lemma serve_one_returns (parse : bytes -> option DNSRecord) (w : world) :
  snd (serve_one parse w) = inr tt.
Proof.
  unfold serve_one, try_except.
  match goal with |- context [match ?m with _ => _ end] =>
    destruct m as [t [e|[]]] end; reflexivity.
Qed.

Lemma dns_server_cons (parse : bytes -> option DNSRecord) (w : world)
    (ws : list world) :
  dns_server parse (w :: ws)
  = (fst (serve_one parse w) ++ fst (dns_server parse ws),
     snd (dns_server parse ws)).
Proof.
  simpl. unfold bind.
  pose proof (serve_one_returns parse w) as H.
  destruct (serve_one parse w) as [t r]. simpl in H. subst r.
  by destruct (dns_server parse ws).
Qed.

(** The loop never ends by an exception, however many datagrams arrive. *)
Lemma dns_server_returns (parse : bytes -> option DNSRecord)
    (ws : list world) :
  snd (dns_server parse ws) = inr tt.
Proof.
  induction ws as [|w ws IH]; [reflexivity|]. by rewrite dns_server_cons.
Qed.

(** C9.  When the received datagram does not decode, the iteration makes
    no [sendto] call on the listening socket and ends normally, and the
    loop goes on to the next [recvfrom]: the run over this datagram and the
    following ones is this iteration's calls followed by the run over the
    following ones, and it does not end by an exception. *)
Theorem malformed_datagram_is_dropped
    (parse : bytes -> option DNSRecord) (w : world) (ws : list world)
    (data : bytes) (addr : address) :
  w_recvfrom w = inr (data, addr) ->
  parse data = None ->
  fst (serve_one parse w) = [Recvfrom; Print MsgProcessingError]
  /\ replies (fst (serve_one parse w)) = []
  /\ snd (serve_one parse w) = inr tt
  /\ dns_server parse (w :: ws)
     = ([Recvfrom; Print MsgProcessingError] ++ fst (dns_server parse ws),
        inr tt).
Proof.
  intros Hrecv Hparse.
  assert (H : serve_one parse w = ([Recvfrom; Print MsgProcessingError], inr tt)).
  { unfold serve_one, call_value. rewrite Hrecv. simpl. by rewrite Hparse. }
  rewrite dns_server_cons, dns_server_returns, H. by simpl.
Qed.

Lemma malformed_datagram_witness :
  dns_server toy_parse [calm_world [Byte.x00]; calm_world [Byte.x01]]
  = ([Recvfrom; Print MsgProcessingError]
       ++ fst (dns_server toy_parse [calm_world [Byte.x01]]), inr tt).
Proof.
  apply (malformed_datagram_is_dropped toy_parse (calm_world [Byte.x00])
           [calm_world [Byte.x01]] [Byte.x00] client); reflexivity.
Defined.

(** C10.  When the datagram decodes and the name classifies BLOCK, then
    whatever the type of the question, the iteration makes exactly one
    [sendto] call on the listening socket, to the origin; its payload is
    the packed reply with the id and the question of the request and
    exactly one answer, of type A with address 0.0.0.0. *)
Theorem blocked_query_is_sinkholed
    (parse : bytes -> option DNSRecord) (w : world)
    (data : bytes) (addr : address) (request : DNSRecord) :
  w_recvfrom w = inr (data, addr) ->
  parse data = Some request ->
  classify (w_state w) (query_name request) = BLOCK ->
  exists answer,
    replies (fst (serve_one parse w)) = [Sendto (Packed answer) addr]
    /\ h_id (header answer) = h_id (header request)
    /\ q answer = q request
    /\ rr answer = [{| rname := query_name request; rtype := QTYPE_A;
                       rclass := CLASS_IN; ttl := 0; rdata := A 0 0 0 0 |}].
Proof.
  intros Hrecv Hparse Hblock.
  assert (Hb : is_domain_blocked (w_state w) (query_name request) = true).
  { unfold classify in Hblock.
    by destruct (is_domain_blocked (w_state w) (query_name request)). }
  exists (add_answer (reply request) (sinkhole_rr (query_name request))).
  split; [|by repeat split].
  unfold serve_one, call_value, log_blocked_domain. rewrite Hrecv. simpl.
  rewrite Hparse. simpl.
  unfold query_name in Hb. change (lit ".") with ["."%char] in Hb. rewrite Hb.
  destruct (w_log_write w), (w_sendto_sinkhole w); reflexivity.
Qed.

Lemma blocked_query_witness :
  exists answer,
    replies (fst (serve_one toy_parse (calm_world [Byte.x01])))
    = [Sendto (Packed answer) client]
    /\ h_id (header answer) = 4660%Z
    /\ q answer = q aaaa_query
    /\ rr answer = [{| rname := lit "ads.example.com"; rtype := QTYPE_A;
                       rclass := CLASS_IN; ttl := 0; rdata := A 0 0 0 0 |}].
Proof.
  apply (blocked_query_is_sinkholed toy_parse (calm_world [Byte.x01])
           [Byte.x01] client aaaa_query); reflexivity.
Defined.

(** The handlers of the forward.  When the datagram decodes, the name
    classifies ALLOW and the outbound socket has been created: if sending
    to or receiving from the upstream raises (a timeout or any other
    error), the iteration makes
    exactly one [sendto] call on the listening socket, to the origin, with
    the packed reply whose response code is SERVFAIL and whose id and
    question are those of the request; and whether the forward succeeds or
    fails, the outbound socket is closed, as the last call made on it. *)
Theorem upstream_failure_yields_servfail
    (parse : bytes -> option DNSRecord) (w : world)
    (data : bytes) (addr : address) (request : DNSRecord) :
  w_recvfrom w = inr (data, addr) ->
  parse data = Some request ->
  classify (w_state w) (query_name request) = ALLOW ->
  w_socket w = None ->
  (upstream_fails w ->
     exists answer,
       replies (fst (serve_one parse w)) = [Sendto (Packed answer) addr]
       /\ h_rcode (header answer) = SERVFAIL
       /\ h_id (header answer) = h_id (header request)
       /\ q answer = q request)
  /\ (exists before after,
        fst (serve_one parse w) = before ++ UpstreamClose :: after
        /\ UpstreamSocket ∈ before
        /\ forall ev, ev ∈ after -> ev = Print MsgProcessingError).
Proof.
  intros Hrecv Hparse Hallow Hsock.
  assert (Hb : is_domain_blocked (w_state w) (query_name request) = false).
  { unfold classify in Hallow.
    by destruct (is_domain_blocked (w_state w) (query_name request)). }
  unfold upstream_fails, serve_one, call_value. rewrite Hrecv. simpl.
  rewrite Hparse. simpl.
  unfold query_name in Hb. change (lit ".") with ["."%char] in Hb.
  rewrite Hb, Hsock. simpl.
  split.
  - intros Hfail. exists (set_rcode (reply request) SERVFAIL).
    split; [|by repeat split].
    destruct (w_upstream_sendto w) as [[]|] eqn:Es; simpl;
      try (destruct (w_sendto_servfail w); reflexivity).
    destruct (w_upstream_recvfrom w) as [[]|resp] eqn:Er; simpl;
      try (destruct (w_sendto_servfail w); reflexivity).
    destruct Hfail as [H|[e H]]; congruence.
  - destruct (w_upstream_sendto w) as [[]|]; simpl;
      [destruct (w_sendto_servfail w) as [[]|]; simpl..|];
      try (eexists [_; _; _; _; _; _], _; split; [reflexivity|];
           split; [repeat constructor|];
           intros ev Hev; repeat (apply elem_of_cons in Hev as [->|Hev]; [reflexivity|]);
           by apply not_elem_of_nil in Hev).
    destruct (w_upstream_recvfrom w) as [[]|resp]; simpl;
      [destruct (w_sendto_servfail w) as [[]|]; simpl..|];
      try (eexists [_; _; _; _; _; _; _], _; split; [reflexivity|];
           split; [repeat constructor|];
           intros ev Hev; repeat (apply elem_of_cons in Hev as [->|Hev]; [reflexivity|]);
           by apply not_elem_of_nil in Hev).
    destruct (w_sendto_relay w) as [[]|]; simpl;
      [destruct (w_sendto_servfail w) as [[]|]; simpl..|];
      try (eexists [_; _; _; _; _; _; _; _], _; split; [reflexivity|];
           split; [repeat constructor|];
           intros ev Hev; repeat (apply elem_of_cons in Hev as [->|Hev]; [reflexivity|]);
           by apply not_elem_of_nil in Hev).
    eexists [_; _; _; _; _; _], _; split; [reflexivity|].
    split; [repeat constructor|].
    intros ev Hev. by apply not_elem_of_nil in Hev.
Qed.

Lemma upstream_failure_witness :
  exists answer,
    replies (fst (serve_one toy_parse (timeout_world [Byte.x02])))
    = [Sendto (Packed answer) client]
    /\ h_rcode (header answer) = SERVFAIL
    /\ h_id (header answer) = 7%Z
    /\ q answer = q safe_query.
Proof.
  apply (upstream_failure_yields_servfail toy_parse
           (timeout_world [Byte.x02]) [Byte.x02] client safe_query);
    try reflexivity.
  right. by exists SocketTimeout.
Defined.

(** C6.  The forward of an ALLOW query can fail without any reply:
    [socket.socket(...)] is called before the inner [try], so when it
    raises, neither handler that sends SERVFAIL runs; the outer handler
    prints and the loop goes on.  Here the datagram decodes to the query
    for [safe.com], the name classifies ALLOW, creating the socket raises,
    and no [sendto] is made on the listening socket, where the
    specification promises a SERVFAIL reply.  The same query with a
    socket and an upstream that times out does get SERVFAIL. *)
Theorem socket_failure_leaves_client_without_reply :
  w_recvfrom (no_socket_world [Byte.x02]) = inr ([Byte.x02], client)
  /\ toy_parse [Byte.x02] = Some safe_query
  /\ classify (w_state (no_socket_world [Byte.x02])) (query_name safe_query)
     = ALLOW
  /\ forward_fails (no_socket_world [Byte.x02])
  /\ serve_one toy_parse (no_socket_world [Byte.x02])
     = ([Recvfrom; UpstreamSocket; Print MsgProcessingError], inr tt)
  /\ replies (fst (serve_one toy_parse (no_socket_world [Byte.x02]))) = []
  /\ ~ servfail_as_stated toy_parse (no_socket_world [Byte.x02])
  /\ replies (fst (serve_one toy_parse (timeout_world [Byte.x02])))
     = [Sendto (Packed (set_rcode (reply safe_query) SERVFAIL)) client].
Proof.
  assert (Ht : serve_one toy_parse (no_socket_world [Byte.x02])
               = ([Recvfrom; UpstreamSocket; Print MsgProcessingError],
                  inr tt))
    by (vm_compute; reflexivity).
  assert (Hc : classify (w_state (no_socket_world [Byte.x02]))
                 (query_name safe_query) = ALLOW)
    by (vm_compute; reflexivity).
  assert (Hf : forward_fails (no_socket_world [Byte.x02]))
    by (left; discriminate).
  split; [reflexivity|]. split; [reflexivity|]. split; [exact Hc|].
  split; [exact Hf|]. split; [exact Ht|].
  split; [by rewrite Ht|]. split; [|by vm_compute].
  intros H.
  destruct (H [Byte.x02] client safe_query eq_refl eq_refl Hc Hf)
    as (answer & Hin & _).
  rewrite Ht in Hin. simpl in Hin.
  repeat (apply elem_of_cons in Hin as [Hin|Hin]; [discriminate Hin|]).
  by apply not_elem_of_nil in Hin.
Qed.

(** ** The lock: claim C4 *)

Module ThreadsProps.
Import Threads.

(** While the main thread holds the lock the updater is outside its
    critical section, so the shared set is complete. *)
Lemma holding_complete (old new : gset str) (c : config) :
  updater_inv old new c -> lock c = Some Main -> complete old new (blocked c).
Proof.
  unfold updater_inv, complete. intros Hu Hl.
  destruct (updater c); rewrite Hl in Hu.
  - left. tauto.
  - destruct Hu as (_ & _ & [=]).
  - destruct Hu as ([=] & _).
  - right. tauto.
Qed.

Lemma current_complete (old new : gset str) (c : config) (name : str) :
  complete old new (blocked c) ->
  is_domain_blocked (current c) name
  = is_domain_blocked {| blocked_domains := old;
                         allowed_domains := allowed c |} name
  \/ is_domain_blocked (current c) name
     = is_domain_blocked {| blocked_domains := new;
                            allowed_domains := allowed c |} name.
Proof. unfold current. intros [->| ->]; [by left | by right]. Qed.

Lemma inv_initial (old new allow : gset str) (names : list str) :
  inv old new (initial old new allow names).
Proof.
  unfold inv, updater_inv, main_inv, results_inv. simpl.
  repeat split; try discriminate; constructor.
Qed.

Lemma results_inv_return (old new : gset str) (c : config) (name : str)
    (r : bool) :
  results_inv old new c ->
  complete old new (blocked c) ->
  is_domain_blocked (current c) name = r ->
  results_inv old new (return_ name r c).
Proof.
  unfold results_inv. simpl. intros [Ho Hr] Hc <-. split; [exact Ho|].
  apply Forall_app. split; [exact Hr|].
  apply Forall_singleton. simpl. by apply current_complete.
Qed.

Lemma results_inv_observe (old new : gset str) (c : config) :
  results_inv old new c ->
  complete old new (blocked c) ->
  results_inv old new (observe c).
Proof.
  unfold results_inv. simpl. intros [Ho Hr] Hc. split; [|exact Hr].
  apply Forall_app. split; [exact Ho|]. by apply Forall_singleton.
Qed.

(** Every step of either thread keeps the invariant. *)
Lemma inv_step (old new : gset str) (c c' : config) :
  inv old new c -> step c c' -> inv old new c'.
Proof.
  intros (Hu & Hm & Hr) Hstep.
  pose proof (holding_complete old new c Hu) as Hhold.
  destruct Hstep as
    [c t Hpc Hl | c t Hpc | c x todo Hpc | c Hpc
    | c name rest Hpc Hp | c name Hpc Hl
    | c name Hpc Hin | c name Hpc Hin
    | c name Hpc Hin | c name Hpc Hin
    | c name cand cands Hpc Hin | c name cand cands Hpc Hin
    | c name Hpc];
    unfold inv, updater_inv, main_inv in *; simpl;
    rewrite Hpc in *.
  - (* updater acquires *)
    destruct Hu as (-> & Hb & _). split; [done|]. split; [|exact Hr].
    destruct (main c); rewrite ?Hl; rewrite ?Hl in Hm; intuition discriminate.
  - (* clear *)
    destruct Hu as (-> & Hb & Hl). split.
    + split; [exact Hl|]. rewrite list_to_set_elements_L.
      apply (left_id_L ∅ (∪)).
    + split; [|exact Hr].
      destruct (main c); rewrite ?Hl; rewrite ?Hl in Hm; intuition discriminate.
  - (* add one element *)
    destruct Hu as (Hl & Hb). split.
    + split; [exact Hl|]. rewrite <- Hb. simpl.
      by rewrite (assoc_L (∪)).
    + split; [|exact Hr].
      destruct (main c); rewrite ?Hl; rewrite ?Hl in Hm; intuition discriminate.
  - (* updater releases *)
    destruct Hu as (Hl & Hb). split.
    + split; [|done]. rewrite <- Hb. simpl.
      by rewrite (right_id_L ∅ (∪)).
    + split; [|exact Hr].
      destruct (main c); rewrite ?Hl; rewrite ?Hl in Hm; intuition discriminate.
  - (* a new call *)
    split; [exact Hu|]. split; [exact Hm | exact Hr].
  - (* main acquires *)
    split; [|split; [reflexivity | exact Hr]].
    destruct (updater c); rewrite Hl in Hu; simpl; intuition congruence.
  - (* allowlisted: return False *)
    split; [|split; [done|]].
    + destruct (updater c); rewrite Hm in Hu; simpl; intuition congruence.
    + apply results_inv_return; [exact Hr | by apply Hhold |].
      unfold is_domain_blocked, current. simpl.
      by rewrite (proj2 (in_set_true _ _) Hin).
  - (* not allowlisted *)
    split; [exact Hu|]. split; [by split | exact Hr].
  - (* exact member: return True *)
    destruct Hm as [Hl Hna].
    split; [|split; [done|]].
    + destruct (updater c); rewrite Hl in Hu; simpl; intuition congruence.
    + apply results_inv_return;
        [apply results_inv_observe; [exact Hr | by apply Hhold]
        | by apply Hhold |].
      unfold is_domain_blocked, current. simpl.
      rewrite (proj2 (in_set_false _ _) Hna).
      by rewrite (proj2 (in_set_true _ _) Hin).
  - (* not an exact member: enter the loop *)
    destruct Hm as [Hl Hna].
    split; [exact Hu|]. split.
    + split; [exact Hl|].
      unfold is_domain_blocked, current. simpl.
      rewrite (proj2 (in_set_false _ _) Hna).
      by rewrite (proj2 (in_set_false _ _) Hin).
    + apply results_inv_observe; [exact Hr | by apply Hhold].
  - (* the candidate is blocked: return True *)
    destruct Hm as [Hl Hloop].
    split; [|split; [done|]].
    + destruct (updater c); rewrite Hl in Hu; simpl; intuition congruence.
    + apply results_inv_return;
        [apply results_inv_observe; [exact Hr | by apply Hhold]
        | by apply Hhold |].
      change (current (observe c)) with (current c). rewrite Hloop. simpl.
      by rewrite (proj2 (in_set_true _ _) Hin).
  - (* the candidate is not blocked: next round *)
    destruct Hm as [Hl Hloop].
    split; [exact Hu|]. split.
    + split; [exact Hl|].
      change (current (set_main (MLoop name cands) (observe c)))
        with (current c).
      rewrite Hloop. simpl. by rewrite (proj2 (in_set_false _ _) Hin).
    + apply results_inv_observe; [exact Hr | by apply Hhold].
  - (* the loop is over: return False *)
    destruct Hm as [Hl Hloop].
    split; [|split; [done|]].
    + destruct (updater c); rewrite Hl in Hu; simpl; intuition congruence.
    + apply results_inv_return; [exact Hr | by apply Hhold | exact Hloop].
Qed.

Lemma inv_reachable (old new allow : gset str) (names : list str)
    (c : config) :
  rtc step (initial old new allow names) c -> inv old new c.
Proof.
  intros H.
  refine (rtc_ind_r (fun c => inv old new c) _ _ _ c H).
  - apply inv_initial.
  - intros y z _ Hstep IH. by apply (inv_step old new y z).
Qed.

Lemma allowed_unchanged (c c' : config) : step c c' -> allowed c' = allowed c.
Proof. by destruct 1. Qed.

Lemma allowed_reachable (c c' : config) :
  rtc step c c' -> allowed c' = allowed c.
Proof.
  induction 1 as [|x y z Hstep _ IH]; [reflexivity|].
  rewrite IH. by apply allowed_unchanged.
Qed.

(** The function [exec_one] takes a step of the relation, or none. *)
Lemma exec_one_step (t : tid) (c : config) :
  exec_one t c = c \/ step c (exec_one t c).
Proof.
  destruct t; simpl.
  - destruct (updater c) as [temp|temp|[|x todo]|] eqn:Hu.
    + destruct (lock c) eqn:Hl; [by left|]. right. by apply step_u_acquire.
    + right. by apply step_u_clear.
    + right. by apply step_u_release.
    + right. by eapply step_u_add.
    + by left.
  - destruct (main c) as [|name|name|name|name [|cand cands]] eqn:Hm.
    + destruct (pending c) as [|name rest] eqn:Hp; [by left|].
      right. by apply step_m_call.
    + destruct (lock c) eqn:Hl; [by left|]. right. by apply step_m_acquire.
    + right. destruct (in_set (cleanup_domain name) (allowed c)) eqn:E.
      * apply step_m_allowed; [done | by apply in_set_true].
      * apply step_m_not_allowed; [done | by apply in_set_false].
    + right. destruct (in_set (cleanup_domain name) (blocked c)) eqn:E.
      * apply step_m_blocked; [done | by apply in_set_true].
      * apply step_m_not_blocked; [done | by apply in_set_false].
    + right. by apply step_m_loop_end.
    + right. destruct (in_set cand (blocked c)) eqn:E.
      * eapply step_m_loop_hit; [done | by apply in_set_true].
      * eapply step_m_loop_miss; [done | by apply in_set_false].
Qed.

Lemma exec_reachable (schedule : list tid) (c : config) :
  rtc step c (exec schedule c).
Proof.
  revert c. induction schedule as [|t rest IH]; intros c; simpl.
  - apply rtc_refl.
  - destruct (exec_one_step t c) as [Heq|Hstep].
    + rewrite Heq. apply IH.
    + eapply rtc_l; [exact Hstep | apply IH].
Qed.

(** C4.  In every interleaving of the updater, which replaces the
    previous set [old] by the new set [new] under the lock (clearing it
    and then adding the elements one at a time), and the main thread,
    which classifies the queries [names] one after the other under the
    same lock: every set that a membership test of [is_domain_blocked]
    reads is the complete previous set or the complete new set, and every
    call returns what [is_domain_blocked] computes on one of the two. *)
Theorem classify_sees_complete_set
    (old new allow : gset str) (names : list str) (c : config) :
  rtc step (initial old new allow names) c ->
  Forall (fun b => b = old \/ b = new) (observed c)
  /\ Forall (fun nr =>
               snd nr = is_domain_blocked
                          {| blocked_domains := old;
                             allowed_domains := allow |} (fst nr)
               \/ snd nr = is_domain_blocked
                             {| blocked_domains := new;
                                allowed_domains := allow |} (fst nr))
            (returned c).
Proof.
  intros Hreach.
  destruct (inv_reachable old new allow names c Hreach)
    as (_ & _ & Hobs & Hret).
  apply allowed_reachable in Hreach. simpl in Hreach.
  rewrite Hreach in Hret. by split.
Qed.

Lemma classify_sees_complete_set_witness :
  observed swap_end
  = [{[ lit "tracker.net" ]}; {[ lit "tracker.net" ]};
     {[ lit "tracker.net" ]}; {[ lit "tracker.net" ]}]
  /\ returned swap_end = [(lit "ads.example.com", false)]
  /\ Forall (fun b => b = {[ lit "example.com" ]} \/ b = {[ lit "tracker.net" ]})
            (observed swap_end).
Proof.
  split; [by vm_compute|]. split; [by vm_compute|].
  apply (classify_sees_complete_set
           {[ lit "example.com" ]} {[ lit "tracker.net" ]} ∅
           [lit "ads.example.com"] swap_end).
  apply exec_reachable.
Defined.

(** ** More on the two threads: X20 to X23 *)

(** X20.  Mutual exclusion: in every reachable configuration a thread
    is inside its [with domain_set_lock] block exactly when it holds the
    lock, so the updater and the main thread are never inside at the same
    time. *)
Theorem mutual_exclusion
    (old new allow : gset str) (names : list str) (c : config) :
  rtc step (initial old new allow names) c ->
  (updater_in_cs c = true <-> lock c = Some Updater)
  /\ (main_in_cs c = true <-> lock c = Some Main)
  /\ ~ (updater_in_cs c = true /\ main_in_cs c = true).
Proof.
  intros Hreach.
  destruct (inv_reachable old new allow names c Hreach) as (Hu & Hm & _).
  unfold updater_inv, main_inv, updater_in_cs, main_in_cs in *.
  assert (H1 : (match updater c with
                | ULocked _ | UUpdating _ => true | _ => false end) = true
               <-> lock c = Some Updater)
    by (destruct (updater c); intuition congruence).
  assert (H2 : (match main c with
                | MCheckAllowed _ | MCheckBlocked _ | MLoop _ _ => true
                | _ => false end) = true
               <-> lock c = Some Main)
    by (destruct (main c); intuition congruence).
  split; [exact H1|]. split; [exact H2|].
  intros [Ha Hb]. apply H1 in Ha. apply H2 in Hb. congruence.
Qed.

Lemma mutual_exclusion_witness :
  ~ (updater_in_cs swap_end = true /\ main_in_cs swap_end = true).
Proof.
  apply (mutual_exclusion {[ lit "example.com" ]} {[ lit "tracker.net" ]} ∅
           [lit "ads.example.com"] swap_end).
  apply exec_reachable.
Defined.

(** X21.  The swap is exact: until the updater takes the lock the shared
    set is the previous set, and once the updater has released it the
    shared set is the new set, whatever the main thread did in between. *)
Theorem swap_is_exact
    (old new allow : gset str) (names : list str) (c : config) :
  rtc step (initial old new allow names) c ->
  ((exists t, updater c = UWaiting t) -> blocked c = old)
  /\ (updater c = UDone -> blocked c = new).
Proof.
  intros Hreach.
  destruct (inv_reachable old new allow names c Hreach) as (Hu & _ & _).
  unfold updater_inv in Hu. split.
  - intros [t Ht]. rewrite Ht in Hu. tauto.
  - intros Hd. rewrite Hd in Hu. tauto.
Qed.

Lemma swap_is_exact_witness :
  blocked swap_end = {[ lit "tracker.net" ]}.
Proof.
  apply (swap_is_exact {[ lit "example.com" ]} {[ lit "tracker.net" ]} ∅
           [lit "ads.example.com"] swap_end).
  - apply exec_reachable.
  - reflexivity.
Defined.

(** X22.  No deadlock: in every reachable configuration some thread can
    take a step, unless the refresh is over and every query has been
    answered. *)
Theorem no_deadlock
    (old new allow : gset str) (names : list str) (c : config) :
  rtc step (initial old new allow names) c ->
  (exists c', step c c') \/ finished c.
Proof.
  intros Hreach.
  destruct (inv_reachable old new allow names c Hreach) as (Hu & Hm & _).
  unfold updater_inv, main_inv, finished in *.
  destruct (main c) as [|name|name|name|name [|cand cands]] eqn:Em.
  - destruct (pending c) as [|name rest] eqn:Ep.
    + destruct (updater c) as [t|t|[|x todo]|] eqn:Eu.
      * destruct Hu as (_ & _ & Hl).
        destruct (lock c) as [[]|] eqn:El; try congruence.
        left. eexists. by apply step_u_acquire.
      * left. eexists. by eapply step_u_clear.
      * left. eexists. by apply step_u_release.
      * left. eexists. by eapply step_u_add.
      * by right.
    + left. eexists. by eapply step_m_call.
  - destruct (updater c) as [t|t|[|x todo]|] eqn:Eu.
    + destruct Hu as (_ & _ & Hl).
      destruct (lock c) as [[]|] eqn:El; try congruence.
      left. eexists. by apply step_u_acquire.
    + left. eexists. by eapply step_u_clear.
    + left. eexists. by apply step_u_release.
    + left. eexists. by eapply step_u_add.
    + destruct Hu as (_ & Hl).
      destruct (lock c) as [[]|] eqn:El; try congruence.
      left. eexists. by eapply step_m_acquire.
  - left. destruct (decide (cleanup_domain name ∈ allowed c)).
    + eexists. by eapply step_m_allowed.
    + eexists. by eapply step_m_not_allowed.
  - left. destruct (decide (cleanup_domain name ∈ blocked c)).
    + eexists. by eapply step_m_blocked.
    + eexists. by eapply step_m_not_blocked.
  - left. eexists. by eapply step_m_loop_end.
  - left. destruct (decide (cand ∈ blocked c)).
    + eexists. by eapply step_m_loop_hit.
    + eexists. by eapply step_m_loop_miss.
Qed.

Lemma no_deadlock_witness :
  (exists c', step swap_end c') \/ finished swap_end.
Proof.
  apply (no_deadlock {[ lit "example.com" ]} {[ lit "tracker.net" ]} ∅
           [lit "ads.example.com"] swap_end).
  apply exec_reachable.
Defined.

Lemma order_step (names : list str) (c c' : config) :
  map fst (returned c) ++ in_flight c ++ pending c = names ->
  step c c' ->
  map fst (returned c') ++ in_flight c' ++ pending c' = names.
Proof.
  intros H Hstep.
  destruct Hstep; unfold in_flight in *; simpl;
    repeat match goal with
           | E : main _ = _ |- _ => rewrite E in H; clear E
           | E : pending _ = _ |- _ => rewrite E in H; clear E
           end;
    try exact H;
    try (rewrite map_app; simpl; rewrite <- app_assoc; exact H).
Qed.

(** X23.  Queries are answered in the order they arrive, each once: in
    every reachable configuration the names already answered, the name
    being worked on and the names still waiting make up the list of
    arrivals, in that order. *)
Theorem queries_answered_in_order
    (old new allow : gset str) (names : list str) (c : config) :
  rtc step (initial old new allow names) c ->
  map fst (returned c) ++ in_flight c ++ pending c = names.
Proof.
  intros H.
  refine (rtc_ind_r
            (fun c => map fst (returned c) ++ in_flight c ++ pending c = names)
            _ _ _ c H).
  - reflexivity.
  - intros y z _ Hstep IH. by apply (order_step names y z).
Qed.

Lemma queries_answered_in_order_witness :
  map fst (returned swap_end) ++ in_flight swap_end ++ pending swap_end
  = [lit "ads.example.com"].
Proof.
  apply (queries_answered_in_order
           {[ lit "example.com" ]} {[ lit "tracker.net" ]} ∅
           [lit "ads.example.com"] swap_end).
  apply exec_reachable.
Defined.

End ThreadsProps.

(** * Further properties of the server *)

(** ** More on characters and stripping *)

Lemma lower_keeps_space c : py_isspace (py_lower_char c) = py_isspace c.
Proof. by_char c. Qed.

Lemma lower_lower c : py_lower_char (py_lower_char c) = py_lower_char c.
Proof. by_char c. Qed.

Lemma py_lower_idem (s : str) : py_lower (py_lower s) = py_lower s.
Proof.
  unfold py_lower. rewrite map_map. apply map_ext. intros c. apply lower_lower.
Qed.

Lemma lstrip_by_map (p : ascii -> bool) (f : ascii -> ascii) (s : str) :
  (forall c, p (f c) = p c) ->
  lstrip_by p (map f s) = map f (lstrip_by p s).
Proof.
  intros Hf. induction s as [|c s IH]; simpl; [reflexivity|].
  rewrite Hf. by destruct (p c).
Qed.

Lemma strip_by_map (p : ascii -> bool) (f : ascii -> ascii) (s : str) :
  (forall c, p (f c) = p c) ->
  strip_by p (map f s) = map f (strip_by p s).
Proof.
  intros Hf. unfold strip_by, rstrip_by.
  rewrite lstrip_by_map by exact Hf.
  rewrite <- map_rev, lstrip_by_map by exact Hf. by rewrite map_rev.
Qed.

Lemma py_strip_lower (s : str) : py_strip (py_lower s) = py_lower (py_strip s).
Proof. apply strip_by_map, lower_keeps_space. Qed.

Lemma lstrip_by_app_all (p : ascii -> bool) (a s : str) :
  Forall (fun c => p c = true) a -> lstrip_by p (a ++ s) = lstrip_by p s.
Proof.
  induction 1 as [|c a Hc _ IH]; simpl; [reflexivity|]. by rewrite Hc.
Qed.

Lemma lstrip_by_app (p : ascii -> bool) (s b : str) :
  lstrip_by p (s ++ b)
  = match lstrip_by p s with
    | [] => lstrip_by p b
    | r => r ++ b
    end.
Proof.
  induction s as [|c s IH]; simpl.
  - by destruct (lstrip_by p b).
  - destruct (p c); [exact IH | reflexivity].
Qed.

Lemma rstrip_by_app_all (p : ascii -> bool) (s b : str) :
  Forall (fun c => p c = true) b -> rstrip_by p (s ++ b) = rstrip_by p s.
Proof.
  intros Hb. unfold rstrip_by. rewrite rev_app_distr.
  rewrite lstrip_by_app_all; [reflexivity|].
  apply Forall_forall. intros c Hc. rewrite Forall_forall in Hb. apply Hb.
  apply list_elem_of_In. apply list_elem_of_In in Hc. by apply in_rev.
Qed.

Lemma rstrip_by_nil (p : ascii -> bool) : rstrip_by p [] = [].
Proof. reflexivity. Qed.

(** Characters of the stripped set around a string do not matter. *)
Lemma strip_by_around (p : ascii -> bool) (a s b : str) :
  Forall (fun c => p c = true) a ->
  Forall (fun c => p c = true) b ->
  strip_by p (a ++ s ++ b) = strip_by p s.
Proof.
  intros Ha Hb. unfold strip_by.
  rewrite lstrip_by_app_all by exact Ha.
  rewrite lstrip_by_app.
  destruct (lstrip_by p s) as [|c r] eqn:E.
  - rewrite (lstrip_by_all p b Hb). reflexivity.
  - by rewrite rstrip_by_app_all.
Qed.

(** The parts that [split()] returns are not empty, have no whitespace,
    and are made of characters of the string. *)
Lemma py_split_go_parts (P : ascii -> Prop) (s : str) : forall cur,
  Forall P cur -> Forall (fun c => py_isspace c = false) cur ->
  Forall P s ->
  Forall (fun w => w <> [] /\ Forall P w
                   /\ Forall (fun c => py_isspace c = false) w)
         (py_split_go cur s).
Proof.
  assert (Hrev : forall (Q : ascii -> Prop) (l : str), Forall Q l -> Forall Q (rev l)).
  { intros Q l H. apply Forall_forall. intros c Hc.
    rewrite Forall_forall in H. apply H.
    apply list_elem_of_In. apply list_elem_of_In in Hc. by apply in_rev. }
  induction s as [|c s IH]; intros cur Hcur Hns Hs; simpl.
  - destruct cur as [|x cur]; [constructor|].
    apply Forall_singleton. split; [|split; by apply Hrev].
    simpl. by destruct (rev cur).
  - inversion Hs as [|? ? Hc Hs']; subst.
    destruct (py_isspace c) eqn:Ec.
    + destruct cur as [|x cur]; [by apply IH|].
      constructor; [|by apply IH].
      split; [|split; by apply Hrev].
      simpl. by destruct (rev cur).
    + apply IH; [by constructor | by constructor | exact Hs'].
Qed.

Lemma py_split_parts (P : ascii -> Prop) (s : str) :
  Forall P s ->
  Forall (fun w => w <> [] /\ Forall P w
                   /\ Forall (fun c => py_isspace c = false) w)
         (py_split s).
Proof. intros H. by apply py_split_go_parts. Qed.

Lemma py_lower_fixed (s : str) :
  Forall (fun c => py_lower_char c = c) s -> py_lower s = s.
Proof.
  induction 1 as [|c s Hc _ IH]; simpl; [reflexivity|]. by rewrite Hc, IH.
Qed.

Lemma py_lower_chars_fixed (s : str) :
  Forall (fun c => py_lower_char c = c) (py_lower s).
Proof.
  unfold py_lower. apply Forall_forall. intros c Hc.
  apply list_elem_of_In, in_map_iff in Hc as (x & <- & _). apply lower_lower.
Qed.

Lemma py_strip_no_space (s : str) :
  s <> [] -> Forall (fun c => py_isspace c = false) s -> py_strip s = s.
Proof.
  intros Hne H. apply strip_by_id; intros c Hc.
  - apply head_Some_elem_of in Hc. rewrite Forall_forall in H. by apply H.
  - apply last_Some_elem_of in Hc. rewrite Forall_forall in H. by apply H.
Qed.

(** A single part in lower case that is no comment goes straight to the
    last steps. *)
Lemma cleanup_domain_one_part (w : str) :
  w <> [] ->
  Forall (fun c => py_isspace c = false) w ->
  Forall (fun c => py_lower_char c = c) w ->
  py_startswith (lit "#") w = false ->
  cleanup_domain w = cleanup_tail w.
Proof.
  intros Hne Hns Hlow Hhash. unfold cleanup_domain.
  rewrite py_strip_no_space, py_lower_fixed by done.
  rewrite Hhash.
  assert (Hnil : match w with [] => true | _ => false end = false)
    by (destruct w; congruence).
  rewrite Hnil. simpl orb. cbv iota zeta.
  by rewrite py_split_single by done.
Qed.

Lemma cleanup_domain_lower (x : str) :
  cleanup_domain (py_lower x) = cleanup_domain x.
Proof. unfold cleanup_domain. by rewrite py_strip_lower, py_lower_idem. Qed.

(** The decision depends on the query only through its cleaned form. *)
Lemma is_domain_blocked_cleaned (st : state) (a b : str) :
  cleanup_domain a = cleanup_domain b ->
  is_domain_blocked st a = is_domain_blocked st b.
Proof. intros H. unfold is_domain_blocked. by rewrite H. Qed.

(** ** Regular expression facts *)

Lemma matches_none_cat (r1 r2 : regex) (s : str) :
  matches (RCat (RCat RNone r1) r2) s = false.
Proof. induction s as [|c s IH]; simpl; [reflexivity | exact IH]. Qed.

Lemma matches_ipv4_digit (c : ascii) (s : str) :
  matches re_ipv4 (c :: s) = true -> is_digit c = true.
Proof.
  simpl. destruct (is_digit c); [reflexivity|].
  simpl. by rewrite matches_none_cat.
Qed.

(** A string that matches the dotted-quad pattern begins with a digit. *)
Lemma ipv4_starts_with_digit (w : str) :
  re_match_anchored re_ipv4 w = true ->
  exists c r, w = c :: r /\ is_digit c = true.
Proof.
  unfold re_match_anchored. intros H.
  apply orb_true_iff in H as [H|H].
  - destruct w as [|c r]; [discriminate|].
    exists c, r. split; [reflexivity | by apply (matches_ipv4_digit c r)].
  - destruct w as [|c r]; [discriminate|].
    destruct (rev (c :: r)) as [|x l] eqn:E; [discriminate|].
    apply andb_true_iff in H as [_ H].
    assert (Hw : c :: r = rev l ++ [x]).
    { rewrite <- (rev_involutive (c :: r)), E. reflexivity. }
    destruct (rev l) as [|y l'] eqn:El; [discriminate|].
    simpl in Hw. injection Hw as -> _.
    exists y, r. split; [reflexivity | by apply (matches_ipv4_digit y l')].
Qed.

Lemma digit_not_hash (c : ascii) : is_digit c = true -> is_char "#" c = false.
Proof. by_char c. Qed.

Lemma py_split_go_head (s : str) : forall (cur w : str) (ws : list str),
  cur <> [] -> py_split_go cur s = w :: ws -> head w = last cur.
Proof.
  induction s as [|c s IH]; intros cur w ws Hne; simpl.
  - destruct cur as [|x cur]; [done|]. intros [= <- _].
    apply (head_rev (x :: cur)).
  - destruct (py_isspace c).
    + destruct cur as [|x cur]; [done|]. intros [= <- _].
      apply (head_rev (x :: cur)).
    + intros H. apply IH in H; [|discriminate].
      rewrite H. by destruct cur.
Qed.

(** The first part of [split()] begins where the stripped string begins. *)
Lemma py_split_head (x w : str) (ws : list str) :
  (forall c, head x = Some c -> py_isspace c = false) ->
  py_split x = w :: ws -> head w = head x.
Proof.
  intros Hx. unfold py_split. destruct x as [|c s]; [discriminate|].
  simpl. rewrite (Hx c eq_refl). intros H.
  by apply py_split_go_head in H.
Qed.

(** ** The normaliser: X1 to X4 *)

(** X1.  Letter case does not matter: two queries that are equal after
    lowercasing clean to the same name and get the same decision. *)
Theorem decision_ignores_case (st : state) (a b : str) :
  py_lower a = py_lower b ->
  cleanup_domain a = cleanup_domain b
  /\ is_domain_blocked st a = is_domain_blocked st b.
Proof.
  intros H.
  assert (Hc : cleanup_domain a = cleanup_domain b).
  { rewrite <- (cleanup_domain_lower a), <- (cleanup_domain_lower b).
    by rewrite H. }
  split; [exact Hc | by apply is_domain_blocked_cleaned].
Qed.

Lemma decision_ignores_case_witness :
  cleanup_domain (lit "ADS.Example.COM") = cleanup_domain (lit "ads.example.com")
  /\ is_domain_blocked example_state (lit "ADS.Example.COM")
     = is_domain_blocked example_state (lit "ads.example.com").
Proof.
  apply (decision_ignores_case example_state
           (lit "ADS.Example.COM") (lit "ads.example.com")).
  vm_compute. reflexivity.
Defined.

(** X2.  Whitespace around a line does not matter, the line break that
    ends a line of a file included. *)
Theorem cleanup_ignores_surrounding_space (a s b : str) :
  blank a -> blank b -> cleanup_domain (a ++ s ++ b) = cleanup_domain s.
Proof.
  intros Ha Hb. unfold cleanup_domain, py_strip.
  by rewrite strip_by_around.
Qed.

Lemma cleanup_ignores_surrounding_space_witness :
  cleanup_domain (lit "  " ++ lit "0.0.0.0 example.com" ++ [ascii_of_nat 13; ascii_of_nat 10])
  = cleanup_domain (lit "0.0.0.0 example.com").
Proof.
  apply (cleanup_ignores_surrounding_space (lit "  ")
           (lit "0.0.0.0 example.com") [ascii_of_nat 13; ascii_of_nat 10]).
  - by repeat constructor.
  - by repeat constructor.
Defined.

(** X3.  A hosts-file line: when the trimmed, lowercased line splits into
    at least two parts and the first is a dotted quad, the result is that
    of the second part alone (unless that part begins with [#]); the
    address and everything after the second part are dropped. *)
Theorem hosts_line_takes_second_part (line p0 p1 : str) (rest : list str) :
  py_split (py_lower (py_strip line)) = p0 :: p1 :: rest ->
  re_match_anchored re_ipv4 p0 = true ->
  py_startswith (lit "#") p1 = false ->
  cleanup_domain line = cleanup_domain p1.
Proof.
  intros Hsplit Hip Hhash.
  pose proof (py_split_parts (fun c => py_lower_char c = c)
                (py_lower (py_strip line))
                (py_lower_chars_fixed (py_strip line))) as Hparts.
  rewrite Hsplit in Hparts.
  inversion Hparts as [|? ? _ Hparts']; subst.
  inversion Hparts' as [|? ? (Hne & Hlow & Hns) _]; subst.
  rewrite (cleanup_domain_one_part p1) by done.
  (* the line itself is neither empty nor a comment *)
  destruct (ipv4_starts_with_digit p0 Hip) as (c & r & -> & Hc).
  assert (Hhead : head (py_lower (py_strip line)) = Some c).
  { rewrite <- (py_split_head (py_lower (py_strip line)) (c :: r) (p1 :: rest));
      [reflexivity | | exact Hsplit].
    intros y Hy. rewrite <- py_strip_lower in Hy.
    by apply strip_by_head in Hy. }
  unfold cleanup_domain.
  destruct (py_lower (py_strip line)) as [|c' x] eqn:Ex; [discriminate|].
  injection Hhead as ->.
  assert (Hnc : py_startswith (lit "#") (c :: x) = false).
  { unfold py_startswith. simpl. by rewrite (digit_not_hash c Hc). }
  rewrite Hnc. simpl orb. cbv iota zeta.
  rewrite Hsplit, Hip. reflexivity.
Qed.

Lemma hosts_line_takes_second_part_witness :
  cleanup_domain (lit "0.0.0.0   Ads.Example.com   # tracker")
  = cleanup_domain (lit "ads.example.com").
Proof.
  apply (hosts_line_takes_second_part
           (lit "0.0.0.0   Ads.Example.com   # tracker")
           (lit "0.0.0.0") (lit "ads.example.com") [lit "#"; lit "tracker"]);
    vm_compute; reflexivity.
Defined.

Lemma www_domain (d : str) : Domain d -> Domain (lit "www." ++ d).
Proof.
  intros [Hne (Hchars & Hlow & Hhead & Hlast)]. split; [discriminate|].
  repeat split.
  - change (lit "www." ++ d) with ("w"%char :: "w"%char :: "w"%char :: "."%char :: d).
    by repeat constructor.
  - unfold py_lower in *. rewrite map_app, Hlow. reflexivity.
  - intros c [= <-]. reflexivity.
  - intros c. rewrite last_app. destruct (last d) as [x|] eqn:E.
    + intros [= <-]. by apply Hlast.
    + apply last_None in E. congruence.
Qed.

(** X4.  A leading [www.] is dropped: for a Domain [d], [www.d] cleans to
    [d], so when [d] does not itself begin with [www.] the query [www.d]
    gets the decision of [d]. *)
Theorem www_prefix_is_dropped (st : state) (d : str) :
  Domain d ->
  cleanup_domain (lit "www." ++ d) = d
  /\ (py_startswith (lit "www.") d = false ->
      is_domain_blocked st (lit "www." ++ d) = is_domain_blocked st d).
Proof.
  intros Hd.
  assert (Hc : cleanup_domain (lit "www." ++ d) = d).
  { rewrite cleanup_domain_on_domain by (by apply www_domain).
    rewrite strip_prefix_app.
    destruct Hd as [_ (_ & _ & Hhead & Hlast)].
    unfold py_strip_chars. by apply strip_by_id. }
  split; [exact Hc|].
  intros Hwww. apply is_domain_blocked_cleaned.
  by rewrite Hc, cleanup_domain_fixed.
Qed.

Lemma example_com_domain : Domain (lit "example.com").
Proof.
  split; [discriminate|]. repeat split.
  - by repeat constructor.
  - intros c [= <-]. reflexivity.
  - intros c [= <-]. reflexivity.
Qed.

Lemma www_prefix_is_dropped_witness :
  cleanup_domain (lit "www." ++ lit "example.com") = lit "example.com"
  /\ is_domain_blocked example_state (lit "www." ++ lit "example.com")
     = is_domain_blocked example_state (lit "example.com").
Proof.
  destruct (www_prefix_is_dropped example_state (lit "example.com")
              example_com_domain) as [H1 H2].
  split; [exact H1 | apply H2; vm_compute; reflexivity].
Defined.

(** ** The classifier: X5 to X7 *)

Lemma py_join_app (sep : str) (a b : list str) :
  a <> [] -> b <> [] ->
  py_join sep (a ++ b) = py_join sep a ++ sep ++ py_join sep b.
Proof.
  intros Ha Hb. induction a as [|x a IH]; [done|].
  destruct a as [|y a].
  - simpl. by destruct b.
  - change (py_join sep ((x :: y :: a) ++ b))
      with (x ++ sep ++ py_join sep ((y :: a) ++ b)).
    rewrite IH by discriminate.
    change (py_join sep (x :: y :: a)) with (x ++ sep ++ py_join sep (y :: a)).
    by rewrite <- !app_assoc.
Qed.

(** The candidates of the walk over a name are the name itself and its
    right-aligned suffixes that start after a dot. *)
Lemma suffix_candidates_spec (n d : str) :
  d ∈ suffix_candidates (py_split_on "." n) <-> label_suffix d n.
Proof.
  split.
  - unfold suffix_candidates. intros H.
    apply list_elem_of_In, in_map_iff in H as (i & <- & Hi).
    apply in_seq in Hi as [_ Hi]. simpl in Hi.
    destruct i as [|i].
    + left. rewrite drop_0. apply (py_join_split "." n).
    + right. exists (py_join (lit ".") (take (S i) (py_split_on "." n))).
      rewrite <- (py_join_split "." n) at 1.
      rewrite <- (take_drop (S i) (py_split_on "." n)) at 1.
      apply (py_join_app (lit ".")).
      * destruct (py_split_on "." n); [simpl in Hi; lia | discriminate].
      * intros Hd. apply (f_equal (@List.length str)) in Hd.
        rewrite length_drop in Hd. simpl in Hd. lia.
  - intros [->|H].
    + rewrite <- (py_join_split "." n) at 1.
      rewrite <- (drop_0 (py_split_on "." n)) at 1.
      apply suffix_candidates_drop.
      pose proof (py_split_on_nonempty "." n).
      destruct (py_split_on "." n); [done | simpl; lia].
    + by apply suffix_candidates_ends_with_dot.
Qed.

(** X5.  The decision in full: a query is blocked exactly when its
    cleaned name is not in the allowlist and the blocklist holds the
    cleaned name or one of its right-aligned suffixes that start after a
    dot (of any number of labels). *)
Theorem is_domain_blocked_iff (st : state) (name : str) :
  is_domain_blocked st name = true <->
  (cleanup_domain name ∉ allowed_domains st)
  /\ exists d, d ∈ blocked_domains st /\ label_suffix d (cleanup_domain name).
Proof.
  rewrite is_domain_blocked_true. split.
  - intros [Ha [Hb|(cand & Hin & Hb)]]; (split; [exact Ha|]).
    + exists (cleanup_domain name). split; [exact Hb | by left].
    + exists cand. split; [exact Hb | by apply suffix_candidates_spec].
  - intros [Ha (d & Hb & Hs)]. split; [exact Ha|]. right.
    exists d. split; [by apply suffix_candidates_spec | exact Hb].
Qed.

(** X6.  A larger blocklist and a smaller allowlist never unblock a
    query. *)
Theorem is_domain_blocked_monotone (st st' : state) (name : str) :
  blocked_domains st ⊆ blocked_domains st' ->
  allowed_domains st' ⊆ allowed_domains st ->
  is_domain_blocked st name = true ->
  is_domain_blocked st' name = true.
Proof.
  intros Hb Ha. rewrite !is_domain_blocked_true.
  intros [Hna [H|(cand & Hin & H)]];
    (split; [intros Hin'; by apply Hna, Ha|]).
  - left. by apply Hb.
  - right. exists cand. split; [exact Hin | by apply Hb].
Qed.

Lemma is_domain_blocked_monotone_witness :
  is_domain_blocked
    {| blocked_domains := {[ lit "example.com"; lit "tracker.net" ]};
       allowed_domains := ∅ |} (lit "ads.example.com") = true.
Proof.
  apply (is_domain_blocked_monotone example_state
           {| blocked_domains := {[ lit "example.com"; lit "tracker.net" ]};
              allowed_domains := ∅ |} (lit "ads.example.com")).
  - intros x Hx. apply elem_of_union. by left.
  - done.
  - by vm_compute.
Defined.

(** X7.  After a refresh, a query whose cleaned name is empty (the root
    name, a name made of dots, a name that begins with [#] or [/]) is
    never blocked: the refresh adds no empty entry and the walk over the
    empty name has the empty name as its only candidate. *)
Theorem empty_name_is_allowed (net : network) (urls : list str) (st : state)
    (name : str) :
  cleanup_domain name = [] ->
  is_domain_blocked (fst (fetch_and_load_remote_blocklists net urls st)) name
  = false.
Proof.
  intros He. apply not_true_is_false. rewrite is_domain_blocked_true, He.
  intros [_ [H|(cand & Hin & H)]].
  - apply elem_of_refreshed in H as (_ & _ & _ & _ & _ & _ & _ & Hne). done.
  - simpl in Hin. apply list_elem_of_singleton in Hin as ->.
    apply elem_of_refreshed in H as (_ & _ & _ & _ & _ & _ & _ & Hne). done.
Qed.

Lemma empty_name_is_allowed_witness :
  is_domain_blocked
    (fst (fetch_and_load_remote_blocklists hosts_net
            [lit "https://someonewhocares.org/hosts/hosts"] empty_state))
    (lit "...") = false.
Proof.
  apply (empty_name_is_allowed hosts_net
           [lit "https://someonewhocares.org/hosts/hosts"] empty_state
           (lit "...")).
  vm_compute. reflexivity.
Defined.

(** ** Loading and refreshing: X8 to X12 *)

(** X8.  When every source fails, the refresh still replaces the set: the
    blocklist is empty afterwards, whatever it held before. *)
Theorem refresh_with_no_source_empties (net : network) (urls : list str)
    (st : state) :
  (forall url, url ∈ urls -> fetch_fails net url) ->
  blocked_domains (fst (fetch_and_load_remote_blocklists net urls st)) = ∅.
Proof.
  intros Hfail. apply set_eq. intros d. rewrite elem_of_refreshed. split.
  - intros (url & text & line & Hin & Hf & _).
    specialize (Hfail url Hin). unfold fetch_fails in Hfail. congruence.
  - intros H. by apply not_elem_of_empty in H.
Qed.

Lemma refresh_with_no_source_empties_witness :
  blocked_domains
    (fst (fetch_and_load_remote_blocklists down_net
            [lit "http://185.107.97.246/AdVault/list.txt";
             lit "https://abp.oisd.nl/"] example_state))
  = ∅.
Proof.
  apply (refresh_with_no_source_empties down_net
           [lit "http://185.107.97.246/AdVault/list.txt";
            lit "https://abp.oisd.nl/"] example_state).
  intros url _. vm_compute. reflexivity.
Defined.

Lemma blocklist_updater_keeps_allowed (urls : list str) (rounds : list network) :
  forall st : state,
  allowed_domains (blocklist_updater urls rounds st) = allowed_domains st.
Proof.
  induction rounds as [|net rest IH]; intros st; simpl; [reflexivity|].
  by rewrite IH, refresh_keeps_allowed.
Qed.

Lemma blocklist_updater_snoc (urls : list str) (rounds : list network)
    (net : network) :
  forall st : state,
  blocklist_updater urls (rounds ++ [net]) st
  = fst (fetch_and_load_remote_blocklists net urls
           (blocklist_updater urls rounds st)).
Proof.
  induction rounds as [|n rest IH]; intros st; simpl; [reflexivity|].
  by rewrite IH.
Qed.

(** X9.  After any number of rounds of the updater loop the blocklist is
    exactly what the sources served at the last round: nothing of an
    earlier round survives unless it is served again; the allowlist is
    never touched. *)
Theorem blocklist_updater_keeps_last_round (urls : list str)
    (rounds : list network) (net : network) (st : state) :
  (forall d, d ∈ blocked_domains (blocklist_updater urls (rounds ++ [net]) st)
             <-> produced_by net urls d)
  /\ allowed_domains (blocklist_updater urls (rounds ++ [net]) st)
     = allowed_domains st.
Proof.
  split.
  - intros d. rewrite blocklist_updater_snoc. apply elem_of_refreshed.
  - apply blocklist_updater_keeps_allowed.
Qed.

(** X10.  An entry of the allowlist file works however it is written and
    whatever the blocklists say: a query that cleans to the same name as a
    line of the file is never blocked, at startup and after any number of
    refreshes. *)
Theorem allowlist_entry_is_never_blocked (fs : filesystem) (urls : list str)
    (rounds : list network) (lines : list str) (line name : str) :
  fs allowlist_file = Some lines ->
  line ∈ lines ->
  cleanup_domain line <> [] ->
  cleanup_domain name = cleanup_domain line ->
  is_domain_blocked (blocklist_updater urls rounds (startup fs)) name = false.
Proof.
  intros Hfs Hin Hne Hname. apply not_true_is_false.
  rewrite is_domain_blocked_true. intros [Hna _]. apply Hna.
  rewrite blocklist_updater_keeps_allowed. simpl.
  unfold load_domains_from_file. rewrite Hfs.
  apply elem_of_add_lines. right. exists line. by rewrite Hname.
Qed.

Lemma allowlist_entry_is_never_blocked_witness :
  is_domain_blocked
    (blocklist_updater [lit "https://someonewhocares.org/hosts/hosts"]
       [down_net; hosts_net] (startup allow_fs))
    (lit "ADS.example.com.") = false.
Proof.
  apply (allowlist_entry_is_never_blocked allow_fs
           [lit "https://someonewhocares.org/hosts/hosts"]
           [down_net; hosts_net]
           [lit "# my exceptions"; lit "http://www.Ads.Example.com/banner"]
           (lit "http://www.Ads.Example.com/banner")
           (lit "ADS.example.com.")).
  - vm_compute. reflexivity.
  - apply list_elem_of_In. right. by left.
  - by vm_compute.
  - vm_compute. reflexivity.
Defined.

(** X11.  What a fetched source lists is blocked: after a refresh, a line
    of a fetched source with a non-empty cleaned form [d] blocks every
    query whose cleaned name is [d] or ends with a dot followed by [d],
    unless that cleaned name is in the allowlist. *)
Theorem listed_line_blocks (net : network) (urls : list str) (st : state)
    (url text line name : str) :
  url ∈ urls ->
  fetched net url = Some text ->
  line ∈ py_splitlines text ->
  cleanup_domain line <> [] ->
  label_suffix (cleanup_domain line) (cleanup_domain name) ->
  cleanup_domain name ∉ allowed_domains st ->
  is_domain_blocked (fst (fetch_and_load_remote_blocklists net urls st)) name
  = true.
Proof.
  intros Hurl Hf Hline Hne Hsuf Hna.
  apply is_domain_blocked_true. rewrite refresh_keeps_allowed.
  split; [exact Hna|].
  assert (Hd : cleanup_domain line
               ∈ blocked_domains
                   (fst (fetch_and_load_remote_blocklists net urls st))).
  { apply elem_of_refreshed. by exists url, text, line. }
  destruct Hsuf as [Heq|Hsuf].
  - left. by rewrite <- Heq.
  - right. exists (cleanup_domain line).
    split; [by apply suffix_candidates_ends_with_dot | exact Hd].
Qed.

Lemma listed_line_blocks_witness :
  is_domain_blocked
    (fst (fetch_and_load_remote_blocklists hosts_net
            [lit "https://someonewhocares.org/hosts/hosts"] empty_state))
    (lit "cdn.ads.example.com") = true.
Proof.
  apply (listed_line_blocks hosts_net
           [lit "https://someonewhocares.org/hosts/hosts"] empty_state
           (lit "https://someonewhocares.org/hosts/hosts")
           (lit "# hosts
127.0.0.1 localhost
0.0.0.0 Ads.Example.com
")
           (lit "0.0.0.0 Ads.Example.com") (lit "cdn.ads.example.com")).
  - by left.
  - vm_compute. reflexivity.
  - apply list_elem_of_In. vm_compute. tauto.
  - by vm_compute.
  - right. exists (lit "cdn"). vm_compute. reflexivity.
  - apply not_elem_of_empty.
Defined.

(** X12.  The allowlist holds exactly the non-empty cleaned lines of the
    file; a path that does not exist gives the empty allowlist. *)
Theorem load_domains_from_file_iff (fs : filesystem) (path d : str) :
  d ∈ load_domains_from_file fs path <->
  exists lines line,
    fs path = Some lines /\ line ∈ lines
    /\ cleanup_domain line = d /\ d <> [].
Proof.
  unfold load_domains_from_file. destruct (fs path) as [lines|].
  - rewrite elem_of_add_lines. split.
    + intros [H|(line & Hin & Hc & Hne)]; [by apply not_elem_of_empty in H|].
      by exists lines, line.
    + intros (ls & line & [= <-] & Hin & Hc & Hne). right. by exists line.
  - split.
    + intros H. by apply not_elem_of_empty in H.
    + by intros (ls & line & [=] & _).
Qed.

(** ** The relay loop: X13 to X19 *)

Ltac relay_setup Hrecv Hparse Hb :=
  unfold serve_one, call_value, log_blocked_domain;
  rewrite Hrecv; simpl; rewrite Hparse; simpl;
  unfold query_name in Hb; change (lit ".") with ["."%char] in Hb;
  rewrite Hb.

(** X13.  A query that is not blocked and whose forward succeeds is
    relayed verbatim: the request bytes go unchanged to 1.1.1.1 port 53
    with a timeout of 10 seconds, the bytes that come back go unchanged to
    the origin, and the socket is closed; nothing else is called. *)
Theorem allowed_query_is_relayed
    (parse : bytes -> option DNSRecord) (w : world)
    (data resp : bytes) (addr : address) (request : DNSRecord) :
  w_recvfrom w = inr (data, addr) ->
  parse data = Some request ->
  is_domain_blocked (w_state w) (query_name request) = false ->
  w_socket w = None ->
  w_upstream_sendto w = None ->
  w_upstream_recvfrom w = inr resp ->
  w_sendto_relay w = None ->
  serve_one parse w
  = ([Recvfrom; UpstreamSocket; UpstreamSettimeout 10;
      UpstreamSendto data (lit "1.1.1.1", 53%Z); UpstreamRecvfrom;
      Sendto (Raw resp) addr; UpstreamClose], inr tt).
Proof.
  intros Hrecv Hparse Hb Hsock Hsend Hresp Hrelay.
  relay_setup Hrecv Hparse Hb.
  by rewrite Hsock, Hsend, Hresp, Hrelay.
Qed.

Lemma allowed_query_is_relayed_witness :
  serve_one toy_parse (calm_world [Byte.x02])
  = ([Recvfrom; UpstreamSocket; UpstreamSettimeout 10;
      UpstreamSendto [Byte.x02] (lit "1.1.1.1", 53%Z); UpstreamRecvfrom;
      Sendto (Raw [Byte.xff]) client; UpstreamClose], inr tt).
Proof.
  apply (allowed_query_is_relayed toy_parse (calm_world [Byte.x02])
           [Byte.x02] [Byte.xff] client safe_query);
    vm_compute; reflexivity.
Defined.

(** X14.  For a datagram that decodes: the log of blocked domains gets
    an append exactly when the name is blocked, and then for that name;
    and a blocked name causes no call on an outbound socket at all. *)
Theorem blocked_name_is_logged_and_stays_local
    (parse : bytes -> option DNSRecord) (w : world)
    (data : bytes) (addr : address) (request : DNSRecord) :
  w_recvfrom w = inr (data, addr) ->
  parse data = Some request ->
  (forall n, LogAppend n ∈ fst (serve_one parse w) <->
             is_domain_blocked (w_state w) (query_name request) = true
             /\ n = query_name request)
  /\ (is_domain_blocked (w_state w) (query_name request) = true ->
      Forall (fun ev => is_upstream ev = false) (fst (serve_one parse w))).
Proof.
  intros Hrecv Hparse.
  destruct (is_domain_blocked (w_state w) (query_name request)) eqn:Hb.
  - assert (Ht : exists t1 t2,
              fst (serve_one parse w)
              = [Recvfrom; Print (MsgBlocked (query_name request) (fst addr));
                 LogAppend (query_name request)] ++ t1
                ++ [Sendto (Packed (add_answer (reply request)
                                      (sinkhole_rr (query_name request)))) addr]
                ++ t2
              /\ Forall (fun ev => exists m, ev = Print m) (t1 ++ t2)).
    { relay_setup Hrecv Hparse Hb.
      destruct (w_log_write w), (w_sendto_sinkhole w); simpl;
        [exists [Print (MsgLogFailed (query_name request))],
                [Print MsgProcessingError]
        | exists [Print (MsgLogFailed (query_name request))], []
        | exists [], [Print MsgProcessingError]
        | exists [], []];
        (split; [reflexivity | repeat constructor; eauto]). }
    destruct Ht as (t1 & t2 & -> & Hprints).
    apply Forall_app in Hprints as [H1 H2].
    assert (Hnolog : forall t n, Forall (fun ev => exists m, ev = Print m) t ->
                                 LogAppend n ∉ t).
    { intros t n Ht Hin. rewrite Forall_forall in Ht.
      destruct (Ht _ Hin) as [m [=]]. }
    assert (Hnoup : forall t, Forall (fun ev => exists m, ev = Print m) t ->
                              Forall (fun ev => is_upstream ev = false) t).
    { intros t Ht. eapply Forall_impl; [exact Ht|]. by intros ev [m ->]. }
    split.
    + intros n. split.
      * intros Hin. split; [reflexivity|].
        apply elem_of_app in Hin as [Hin|Hin].
        -- repeat (apply elem_of_cons in Hin as [[=]|Hin]; try done).
           by apply not_elem_of_nil in Hin.
        -- apply elem_of_app in Hin as [Hin|Hin]; [by apply Hnolog in Hin|].
           apply elem_of_cons in Hin as [[=]|Hin].
           by apply Hnolog in Hin.
      * intros [_ ->]. apply elem_of_app. left.
        apply list_elem_of_In. right. right. by left.
    + intros _. apply Forall_app. split; [by repeat constructor|].
      apply Forall_app. split; [by apply Hnoup|].
      constructor; [reflexivity | by apply Hnoup].
  - split; [|discriminate].
    intros n. split; [|by intros [[=] _]].
    relay_setup Hrecv Hparse Hb.
    destruct (w_socket w) as [[]|], (w_upstream_sendto w) as [[]|],
      (w_upstream_recvfrom w) as [[]|resp],
      (w_sendto_relay w) as [[]|], (w_sendto_servfail w) as [[]|]; simpl;
      intros Hin;
      repeat (apply elem_of_cons in Hin as [[=]|Hin]);
      by apply not_elem_of_nil in Hin.
Qed.

Lemma blocked_name_is_logged_witness :
  LogAppend (lit "ads.example.com")
    ∈ fst (serve_one toy_parse (calm_world [Byte.x01]))
  /\ Forall (fun ev => is_upstream ev = false)
            (fst (serve_one toy_parse (calm_world [Byte.x01]))).
Proof.
  destruct (blocked_name_is_logged_and_stays_local toy_parse
              (calm_world [Byte.x01]) [Byte.x01] client aaaa_query
              eq_refl eq_refl) as [Hlog Hlocal].
  split.
  - apply Hlog. split; vm_compute; reflexivity.
  - apply Hlocal. vm_compute. reflexivity.
Defined.

(** X15.  When the outbound socket cannot be created, the query is
    dropped: the exception leaves the forward before its [try], so no
    reply of any kind is sent to the origin and nothing is closed; the
    iteration ends normally. *)
Theorem no_socket_no_reply
    (parse : bytes -> option DNSRecord) (w : world)
    (data : bytes) (addr : address) (request : DNSRecord) (e : exn) :
  w_recvfrom w = inr (data, addr) ->
  parse data = Some request ->
  is_domain_blocked (w_state w) (query_name request) = false ->
  w_socket w = Some e ->
  serve_one parse w
  = ([Recvfrom; UpstreamSocket; Print MsgProcessingError], inr tt).
Proof.
  intros Hrecv Hparse Hb Hsock.
  relay_setup Hrecv Hparse Hb. by rewrite Hsock.
Qed.

Lemma no_socket_no_reply_witness :
  serve_one toy_parse (no_socket_world [Byte.x02])
  = ([Recvfrom; UpstreamSocket; Print MsgProcessingError], inr tt).
Proof.
  apply (no_socket_no_reply toy_parse (no_socket_world [Byte.x02])
           [Byte.x02] client safe_query OtherException);
    vm_compute; reflexivity.
Defined.

(** X16.  When the answer of the upstream cannot be sent back to the
    origin, the same handler as for an upstream error runs: a SERVFAIL
    reply is sent to the origin after the failed relay, and the socket is
    closed. *)
Theorem failed_relay_yields_servfail
    (parse : bytes -> option DNSRecord) (w : world)
    (data resp : bytes) (addr : address) (request : DNSRecord) (e : exn) :
  w_recvfrom w = inr (data, addr) ->
  parse data = Some request ->
  is_domain_blocked (w_state w) (query_name request) = false ->
  w_socket w = None ->
  w_upstream_sendto w = None ->
  w_upstream_recvfrom w = inr resp ->
  w_sendto_relay w = Some e ->
  replies (fst (serve_one parse w))
  = [Sendto (Raw resp) addr;
     Sendto (Packed (set_rcode (reply request) SERVFAIL)) addr]
  /\ count_events is_close (fst (serve_one parse w)) = 1.
Proof.
  intros Hrecv Hparse Hb Hsock Hsend Hresp Hrelay.
  relay_setup Hrecv Hparse Hb.
  rewrite Hsock, Hsend, Hresp, Hrelay. simpl.
  destruct e, (w_sendto_servfail w) as [[]|]; by simpl.
Qed.

Lemma failed_relay_yields_servfail_witness :
  replies (fst (serve_one toy_parse (client_gone_world [Byte.x02])))
  = [Sendto (Raw [Byte.xff]) client;
     Sendto (Packed (set_rcode (reply safe_query) SERVFAIL)) client].
Proof.
  apply (failed_relay_yields_servfail toy_parse (client_gone_world [Byte.x02])
           [Byte.x02] [Byte.xff] client safe_query OtherException);
    vm_compute; reflexivity.
Defined.

Ltac all_outcomes w :=
  destruct (w_log_write w) as [[]|], (w_sendto_sinkhole w) as [[]|],
    (w_socket w) as [[]|], (w_upstream_sendto w) as [[]|],
    (w_upstream_recvfrom w) as [[]|?],
    (w_sendto_relay w) as [[]|], (w_sendto_servfail w) as [[]|].

(** X17.  Whatever happens in an iteration, every [sendto] on the
    listening socket goes to the address the datagram of that iteration
    came from. *)
Theorem replies_go_to_the_origin
    (parse : bytes -> option DNSRecord) (w : world)
    (p : payload) (a : address) :
  Sendto p a ∈ fst (serve_one parse w) ->
  exists data, w_recvfrom w = inr (data, a).
Proof.
  unfold serve_one, call_value, log_blocked_domain.
  destruct (w_recvfrom w) as [e|[data addr]]; simpl.
  - intros Hin. repeat (apply elem_of_cons in Hin as [[=]|Hin]).
    by apply not_elem_of_nil in Hin.
  - destruct (parse data) as [request|]; simpl.
    + destruct (is_domain_blocked (w_state w)
                  (py_strip_chars ["."%char] (qname (q request))));
        all_outcomes w; simpl; intros Hin;
        repeat (apply elem_of_cons in Hin as [Hin|Hin];
                [try discriminate Hin; injection Hin as _ ->; by exists data|]);
        by apply not_elem_of_nil in Hin.
    + intros Hin. repeat (apply elem_of_cons in Hin as [[=]|Hin]).
      by apply not_elem_of_nil in Hin.
Qed.

Lemma replies_go_to_the_origin_witness :
  exists data, w_recvfrom (timeout_world [Byte.x02]) = inr (data, client).
Proof.
  apply (replies_go_to_the_origin toy_parse (timeout_world [Byte.x02])
           (Packed (set_rcode (reply safe_query) SERVFAIL)) client).
  apply list_elem_of_In. by vm_compute; tauto.
Defined.

(** In one iteration the outbound socket is closed once when it was
    created and never otherwise. *)
Lemma serve_one_closes_what_it_opens
    (parse : bytes -> option DNSRecord) (w : world) :
  count_events is_close (fst (serve_one parse w))
  = if opens_socket parse w then 1 else 0.
Proof.
  unfold opens_socket, serve_one, call_value, log_blocked_domain, query_name.
  change (lit ".") with ["."%char].
  destruct (w_recvfrom w) as [e|[data addr]]; simpl; [reflexivity|].
  destruct (parse data) as [request|]; simpl; [|reflexivity].
  destruct (is_domain_blocked (w_state w)
              (py_strip_chars ["."%char] (qname (q request))));
    all_outcomes w; reflexivity.
Qed.

Lemma count_events_app (f : event -> bool) (t1 t2 : list event) :
  count_events f (t1 ++ t2) = count_events f t1 + count_events f t2.
Proof. unfold count_events. by rewrite List.filter_app, length_app. Qed.

(** X18.  No outbound socket leaks, over the whole run of the loop: the
    number of [close] calls equals the number of iterations in which a
    socket was created, whatever fails in between. *)
Theorem every_socket_is_closed
    (parse : bytes -> option DNSRecord) (ws : list world) :
  count_events is_close (fst (dns_server parse ws))
  = List.length (List.filter (opens_socket parse) ws).
Proof.
  induction ws as [|w ws IH]; [reflexivity|].
  rewrite dns_server_cons. simpl fst.
  rewrite count_events_app, IH, serve_one_closes_what_it_opens. simpl.
  by destruct (opens_socket parse w).
Qed.



(** ** The extension's block list: X24 to X30 *)

Module ExtensionProps.
Import Extension.

Lemma raw_domains_In (text e : str) :
  e ∈ raw_domains text <->
  (exists line, line ∈ py_split_on "010" text /\ e = js_trim line)
  /\ e <> [] /\ py_startswith (lit "#") e = false.
Proof.
  unfold raw_domains. rewrite list_elem_of_In, filter_In, in_map_iff.
  rewrite andb_true_iff, !negb_true_iff. split.
  - intros [(line & <- & Hin) [Hne Hc]]. split; [|split; [|exact Hc]].
    + exists line. split; [by apply list_elem_of_In | reflexivity].
    + by destruct (js_trim line).
  - intros [(line & Hin & ->) [Hne Hc]]. split; [|split; [|exact Hc]].
    + exists line. split; [reflexivity | by apply list_elem_of_In].
    + by destruct (js_trim line).
Qed.

Lemma js_trim_idem (s : str) : js_trim (js_trim s) = js_trim s.
Proof.
  unfold js_trim. apply strip_by_id.
  - apply strip_by_head.
  - apply strip_by_last.
Qed.

(** X24.  The entries taken from the fetched text are the trimmed lines
    that are neither empty nor comments: every entry is non-empty, does
    not begin with [#], and has no whitespace left at either end; and
    every line whose trimmed form is such is an entry. *)
Theorem raw_domains_entries (text : str) :
  (forall e, e ∈ raw_domains text ->
             e <> [] /\ py_startswith (lit "#") e = false /\ js_trim e = e)
  /\ (forall line, line ∈ py_split_on "010" text ->
                   js_trim line <> [] ->
                   py_startswith (lit "#") (js_trim line) = false ->
                   js_trim line ∈ raw_domains text).
Proof.
  split.
  - intros e He. apply raw_domains_In in He as [(line & _ & ->) [Hne Hc]].
    split; [exact Hne|]. split; [exact Hc | apply js_trim_idem].
  - intros line Hin Hne Hc. apply raw_domains_In. split; [|by split].
    by exists line.
Qed.

Lemma raw_domains_entries_witness :
  lit "tracker.net" ∈ raw_domains sample_list.
Proof.
  destruct (raw_domains_entries sample_list) as [_ H].
  apply (H (lit "   tracker.net")).
  - apply list_elem_of_In. vm_compute. tauto.
  - by vm_compute.
  - vm_compute. reflexivity.
Defined.

Lemma imap_ids (f : nat -> str -> rule) (l : list str) : forall k,
  (forall i d, id (f i d) = k + i) ->
  map id (imap f l) = seq k (List.length l).
Proof.
  revert f. induction l as [|x l IH]; intros f k Hf; simpl; [reflexivity|].
  rewrite Hf, Nat.add_0_r. f_equal.
  apply IH. intros i d. unfold compose. rewrite Hf. lia.
Qed.

Lemma imap_filters (f : nat -> str -> rule) (g : str -> str) (l : list str) :
  (forall i d, urlFilter (f i d) = g d) ->
  map urlFilter (imap f l) = map g l.
Proof.
  revert f. induction l as [|x l IH]; intros f Hf; simpl; [reflexivity|].
  rewrite Hf. f_equal. apply IH. intros i d. apply Hf.
Qed.

Lemma new_rules_ids (l : list str) :
  map id (new_rules l) = seq DNR_RULE_ID_OFFSET (List.length l).
Proof. unfold new_rules. by apply imap_ids. Qed.

Lemma new_rules_NoDup (l : list str) : NoDup (map id (new_rules l)).
Proof. rewrite new_rules_ids. apply NoDup_seq. Qed.

(** X25.  The rules built from a list: one rule per entry, in order,
    with the ids 1, 2, 3, ... (so no two rules share an id), each
    blocking [||entry^]. *)
Theorem new_rules_numbering (l : list str) :
  List.length (new_rules l) = List.length l
  /\ map id (new_rules l) = seq 1 (List.length l)
  /\ NoDup (map id (new_rules l))
  /\ map urlFilter (new_rules l)
     = map (fun domain => lit "||" ++ domain ++ lit "^") l.
Proof.
  split; [apply length_imap|]. split; [apply new_rules_ids|].
  split; [apply new_rules_NoDup|].
  unfold new_rules. by apply imap_filters.
Qed.

Lemma filter_removed (ids : list nat) (rs : list rule) :
  (forall r, r ∈ rs -> id r ∈ ids) ->
  List.filter (fun r => negb (bool_decide (id r ∈ ids))) rs = [].
Proof.
  induction rs as [|r rs IH]; intros H; simpl; [reflexivity|].
  rewrite bool_decide_eq_true_2 by (apply H; by left). simpl.
  apply IH. intros x Hx. apply H. by right.
Qed.

(** Removing the ids of all current rules and adding rules with distinct
    ids is accepted and leaves exactly the added rules. *)
Lemma update_replaces_all (b : browser) (addRules : list rule) :
  NoDup (map id addRules) ->
  updateDynamicRules true (map id (dynamic_rules b)) addRules b
  = Some {| dynamic_rules := addRules; stored := stored b |}.
Proof.
  intros Hnd. unfold updateDynamicRules.
  rewrite filter_removed.
  - simpl. by rewrite bool_decide_eq_true_2.
  - intros r Hr. apply list_elem_of_In, in_map. by apply list_elem_of_In.
Qed.

Lemma update_replaces_rules (rs addRules : list rule)
    (st : option (list str)) :
  NoDup (map id addRules) ->
  updateDynamicRules true (map id rs) addRules
    {| dynamic_rules := rs; stored := st |}
  = Some {| dynamic_rules := addRules; stored := st |}.
Proof.
  apply (update_replaces_all {| dynamic_rules := rs; stored := st |}).
Qed.

(** *** Interleaved runs: X26 to X30 *)

Lemma exec_app (k1 k2 : list (nat * outcome)) : forall s : system,
  exec (k1 ++ k2) s = exec k2 (exec k1 s).
Proof.
  induction k1 as [|[i o] k1 IH]; intros s; simpl; [reflexivity | apply IH].
Qed.

(** A step of run [j] leaves every other run where it is. *)
Lemma turn_other (i j : nat) (o : outcome) (s : system) :
  j <> i -> runs (turn j o s) !! i = runs s !! i.
Proof.
  intros Hne. unfold turn. destruct (runs s !! j) as [r|]; [|reflexivity].
  destruct (step o (shared s) (at_pc r)) as [b' p']. simpl.
  by apply list_lookup_insert_ne.
Qed.

Lemma exec_others (i : nat) (k : list (nat * outcome)) : forall s : system,
  of_others i k -> runs (exec k s) !! i = runs s !! i.
Proof.
  induction k as [|[j o] k IH]; intros s Hk; simpl; [reflexivity|].
  inversion Hk as [|? ? Hj Hk']; subst. simpl in Hj.
  rewrite IH by exact Hk'. by apply turn_other.
Qed.

(** A step of a run that is in its last call. *)
Lemma turn_in_last_call (i : nat) (o : outcome) (s : system) (p : pc) :
  runs s !! i = Some (in_last_call p) ->
  shared (turn i o s) = fst (step o (shared s) p)
  /\ runs (turn i o s) !! i = Some (in_last_call (snd (step o (shared s) p))).
Proof.
  intros Hi. unfold turn. rewrite Hi. simpl.
  destruct (step o (shared s) p) as [b' p']. simpl. split; [reflexivity|].
  rewrite list_lookup_insert_eq by (by eapply lookup_lt_Some).
  unfold advance, in_last_call. simpl. by destruct p'.
Qed.

(** From [getDynamicRules] on, a run whose three calls resolve one after
    the other replaces the whole rule set and stores its list. *)
Lemma resolved_tail (s : system) (i : nat) (rawDomains : list str) :
  runs s !! i = Some (in_last_call (FetchRules rawDomains)) ->
  shared (exec [(i, Resolves); (i, Resolves); (i, Resolves)] s)
  = {| dynamic_rules := new_rules rawDomains; stored := Some rawDomains |}
  /\ runs (exec [(i, Resolves); (i, Resolves); (i, Resolves)] s) !! i
     = Some (in_last_call Done).
Proof.
  intros H0. simpl.
  destruct (turn_in_last_call i Resolves s _ H0) as [Hs1 Hr1].
  simpl in Hs1, Hr1.
  destruct (turn_in_last_call i Resolves _ _ Hr1) as [Hs2 Hr2].
  simpl in Hs2, Hr2. rewrite Hs1 in Hs2, Hr2.
  rewrite update_replaces_all in Hs2, Hr2 by apply new_rules_NoDup.
  simpl in Hs2, Hr2.
  destruct (turn_in_last_call i Resolves _ _ Hr2) as [Hs3 Hr3].
  simpl in Hs3, Hr3. rewrite Hs2 in Hs3. simpl in Hs3.
  by split.
Qed.

(** From [storage.local.get] on, a load whose three calls resolve one
    after the other, with a non-empty list stored, makes the rule set the
    rules of that list. *)
Lemma load_tail (s : system) (i : nat) (l : list str) :
  runs s !! i = Some (in_last_call LoadStored) ->
  stored (shared s) = Some l -> l <> [] ->
  shared (exec [(i, Resolves); (i, Resolves); (i, Resolves)] s)
  = {| dynamic_rules := new_rules l; stored := Some l |}.
Proof.
  intros H0 Hst Hne. simpl. destruct l as [|d ds]; [done|].
  destruct (turn_in_last_call i Resolves s _ H0) as [Hs1 Hr1].
  simpl in Hs1, Hr1. rewrite Hst in Hs1, Hr1. simpl in Hs1, Hr1.
  destruct (turn_in_last_call i Resolves _ _ Hr1) as [Hs2 Hr2].
  simpl in Hs2, Hr2. rewrite Hs1 in Hs2, Hr2.
  destruct (turn_in_last_call i Resolves _ _ Hr2) as [Hs3 Hr3].
  simpl in Hs3. rewrite Hs2 in Hs3.
  rewrite update_replaces_all in Hs3 by apply new_rules_NoDup.
  simpl in Hs3. by rewrite Hst in Hs3.
Qed.

Lemma fails_before_update_step (b : browser) (p : pc) (o : outcome) :
  fails_before_update b p o = true -> step o b p = (b, LoadStored).
Proof.
  destruct p; simpl; try discriminate.
  - by destruct o as [| |[]|].
  - by destruct o.
  - by destruct (resolves o).
  - by destruct (updateDynamicRules _ _ _ _).
Qed.

(** The listener of [onStartup] loads first and then fetches: with a
    non-empty list stored and its three calls resolving, it applies the
    stored list and is then at the first [await] of
    [fetchAndApplyBlockList]. *)
Lemma startup_loads_then_fetches (b : browser) (l : list str) :
  stored b = Some l -> l <> [] ->
  exec [(0, Resolves); (0, Resolves); (0, Resolves)] (one_run b onStartup)
  = {| shared := {| dynamic_rules := new_rules l; stored := Some l |};
       runs := [in_last_call fetchAndApplyBlockList] |}.
Proof.
  intros Hst Hne. destruct l as [|d ds]; [done|].
  unfold one_run, onStartup, exec, turn. simpl. rewrite Hst. simpl.
  rewrite update_replaces_all by apply new_rules_NoDup. simpl.
  by rewrite Hst.
Qed.

(** X26.  A run of [fetchAndApplyBlockList] whose calls all resolve, and
    whose [getDynamicRules], [updateDynamicRules] and [storage.local.set]
    follow one another without a step of another run in between, replaces
    the whole rule set by the rules of the list it fetched and stores that
    list, whatever rules, ids and stored list it finds, and whatever other
    runs did while it waited for the response and for the body. *)
Theorem resolved_run_replaces_all_rules
    (s : system) (i : nat) (text : str)
    (meanwhile1 meanwhile2 : list (nat * outcome)) :
  runs s !! i = Some (in_last_call fetchAndApplyBlockList) ->
  of_others i meanwhile1 ->
  of_others i meanwhile2 ->
  shared (exec ((i, ResolvesResponse true) :: meanwhile1
                ++ (i, ResolvesText text) :: meanwhile2
                ++ [(i, Resolves); (i, Resolves); (i, Resolves)]) s)
  = {| dynamic_rules := new_rules (raw_domains text);
       stored := Some (raw_domains text) |}.
Proof.
  intros H0 Hm1 Hm2.
  change ((i, ResolvesResponse true) :: meanwhile1
          ++ (i, ResolvesText text) :: meanwhile2
          ++ [(i, Resolves); (i, Resolves); (i, Resolves)])
    with ([(i, ResolvesResponse true)] ++ meanwhile1
          ++ [(i, ResolvesText text)] ++ meanwhile2
          ++ [(i, Resolves); (i, Resolves); (i, Resolves)]).
  rewrite !exec_app.
  apply resolved_tail.
  rewrite exec_others by exact Hm2.
  simpl exec at 1.
  match goal with |- runs (turn i _ ?s1) !! i = _ =>
    assert (H1 : runs s1 !! i = Some (in_last_call FetchBody)) end.
  { rewrite exec_others by exact Hm1. simpl.
    by destruct (turn_in_last_call i (ResolvesResponse true) s _ H0). }
  by destruct (turn_in_last_call i (ResolvesText text) _ _ H1).
Qed.

Lemma resolved_run_witness :
  shared (exec [(0, ResolvesResponse true); (1, ResolvesResponse false);
                (1, Resolves); (0, ResolvesText sample_list);
                (0, Resolves); (0, Resolves); (0, Resolves)]
            {| shared := cluttered_browser; runs := [onInstalled; onAlarm] |})
  = {| dynamic_rules := new_rules [lit "ads.example.com"; lit "tracker.net"];
       stored := Some [lit "ads.example.com"; lit "tracker.net"] |}.
Proof.
  apply (resolved_run_replaces_all_rules
           {| shared := cluttered_browser; runs := [onInstalled; onAlarm] |}
           0 sample_list [(1, ResolvesResponse false); (1, Resolves)] []).
  - reflexivity.
  - repeat constructor; discriminate.
  - constructor.
Defined.

(** X27.  When a step of a fetching run fails before any rule is changed
    (the fetch rejects, the status is not ok, the body cannot be read,
    [getDynamicRules] rejects or the update is rejected), and a non-empty
    list is stored at that time, and the three calls of the fallback
    resolve one after the other without a step of another run in between,
    the rule set becomes the rules of the stored list and the stored list
    stays. *)
Theorem failed_run_applies_stored_list
    (s : system) (i : nat) (p : pc) (o : outcome) (l : list str) :
  runs s !! i = Some (in_last_call p) ->
  fails_before_update (shared s) p o = true ->
  stored (shared s) = Some l -> l <> [] ->
  shared (exec [(i, o); (i, Resolves); (i, Resolves); (i, Resolves)] s)
  = {| dynamic_rules := new_rules l; stored := Some l |}.
Proof.
  intros H0 Hfail Hst Hne.
  change [(i, o); (i, Resolves); (i, Resolves); (i, Resolves)]
    with ([(i, o)] ++ [(i, Resolves); (i, Resolves); (i, Resolves)]).
  rewrite exec_app. simpl exec at 2.
  destruct (turn_in_last_call i o s p H0) as [Hs1 Hr1].
  rewrite (fails_before_update_step _ _ _ Hfail) in Hs1, Hr1.
  simpl in Hs1, Hr1.
  apply load_tail; [exact Hr1 | by rewrite Hs1 | exact Hne].
Qed.

Lemma failed_run_witness :
  shared (exec [(0, Rejects); (0, Resolves); (0, Resolves); (0, Resolves)]
            (one_run {| dynamic_rules := []; stored := Some [lit "tracker.net"] |}
                     onAlarm))
  = {| dynamic_rules := new_rules [lit "tracker.net"];
       stored := Some [lit "tracker.net"] |}.
Proof.
  apply (failed_run_applies_stored_list
           (one_run {| dynamic_rules := [];
                       stored := Some [lit "tracker.net"] |} onAlarm)
           0 FetchResponse Rejects [lit "tracker.net"]).
  - reflexivity.
  - reflexivity.
  - reflexivity.
  - discriminate.
Defined.

(** X28.  Round trip through the storage: after a run that replaced the
    rules by those of a non-empty list and stored it, a run that then
    fails before any rule is changed and falls back to the storage, its
    steps not interleaved with another run, leaves rules and storage
    exactly as they were. *)
Theorem failed_run_after_resolved_run_changes_nothing
    (s : system) (i j : nat) (rawDomains : list str) (p : pc) (o : outcome) :
  i <> j ->
  runs s !! i = Some (in_last_call (FetchRules rawDomains)) ->
  rawDomains <> [] ->
  runs s !! j = Some (in_last_call p) ->
  let s1 := exec [(i, Resolves); (i, Resolves); (i, Resolves)] s in
  fails_before_update (shared s1) p o = true ->
  shared (exec [(j, o); (j, Resolves); (j, Resolves); (j, Resolves)] s1)
  = shared s1.
Proof.
  intros Hij Hi Hne Hj s1 Hfail.
  destruct (resolved_tail s i rawDomains Hi) as [Hs1 _].
  fold s1 in Hs1.
  assert (Hj1 : runs s1 !! j = Some (in_last_call p)).
  { unfold s1. rewrite exec_others; [exact Hj|].
    repeat constructor; simpl; congruence. }
  change [(j, o); (j, Resolves); (j, Resolves); (j, Resolves)]
    with ([(j, o)] ++ [(j, Resolves); (j, Resolves); (j, Resolves)]).
  rewrite exec_app. simpl exec at 2.
  destruct (turn_in_last_call j o s1 p Hj1) as [Hs2 Hr2].
  rewrite (fails_before_update_step _ _ _ Hfail) in Hs2, Hr2.
  simpl in Hs2, Hr2.
  rewrite (load_tail _ j rawDomains Hr2); [by rewrite Hs1 | | exact Hne].
  by rewrite Hs2, Hs1.
Qed.

Lemma failed_run_after_resolved_run_witness :
  shared (exec [(1, ResolvesResponse false); (1, Resolves); (1, Resolves);
                (1, Resolves)]
            (exec [(0, Resolves); (0, Resolves); (0, Resolves)]
               overlapping_runs_start))
  = shared (exec [(0, Resolves); (0, Resolves); (0, Resolves)]
              overlapping_runs_start).
Proof.
  apply (failed_run_after_resolved_run_changes_nothing
           overlapping_runs_start 0 1
           [lit "ads.example.com"; lit "tracker.net"]
           FetchResponse (ResolvesResponse false)).
  - discriminate.
  - reflexivity.
  - discriminate.
  - reflexivity.
  - reflexivity.
Defined.

(** X29.  When a run has updated the rules but [storage.local.set]
    rejects, its [catch] block runs the fallback on the updated rule set:
    with a non-empty list stored from before, the fresh rules are replaced
    by the rules of that older list; with nothing stored, the fresh rules
    stay and nothing is stored (the steps of the run not interleaved with
    another run). *)
Theorem failed_store_rolls_back
    (s : system) (i : nat) (rawDomains : list str) (o : outcome) :
  runs s !! i = Some (in_last_call (FetchRules rawDomains)) ->
  resolves o = false ->
  shared (exec [(i, Resolves); (i, Resolves); (i, o);
                (i, Resolves); (i, Resolves); (i, Resolves)] s)
  = match stored (shared s) with
    | Some (d :: ds) =>
        {| dynamic_rules := new_rules (d :: ds); stored := stored (shared s) |}
    | _ =>
        {| dynamic_rules := new_rules rawDomains; stored := stored (shared s) |}
    end.
Proof.
  intros H0 Ho. simpl.
  destruct (turn_in_last_call i Resolves s _ H0) as [Hs1 Hr1].
  simpl in Hs1, Hr1.
  destruct (turn_in_last_call i Resolves _ _ Hr1) as [Hs2 Hr2].
  simpl in Hs2, Hr2. rewrite Hs1 in Hs2, Hr2.
  rewrite update_replaces_all in Hs2, Hr2 by apply new_rules_NoDup.
  simpl in Hs2, Hr2.
  destruct (turn_in_last_call i o _ _ Hr2) as [Hs3 Hr3].
  simpl in Hs3, Hr3. rewrite Ho in Hs3, Hr3. simpl in Hs3, Hr3.
  rewrite Hs2 in Hs3.
  destruct (turn_in_last_call i Resolves _ _ Hr3) as [Hs4 Hr4].
  simpl in Hs4, Hr4. rewrite Hs3 in Hs4, Hr4. simpl in Hs4, Hr4.
  destruct (stored (shared s)) as [[|d ds]|] eqn:Est.
  - destruct (turn_in_last_call i Resolves _ _ Hr4) as [Hs5 Hr5].
    simpl in Hs5, Hr5.
    destruct (turn_in_last_call i Resolves _ _ Hr5) as [Hs6 _].
    simpl in Hs6. by rewrite Hs6, Hs5, Hs4.
  - destruct (turn_in_last_call i Resolves _ _ Hr4) as [Hs5 Hr5].
    simpl in Hs5, Hr5. rewrite Hs4 in Hs5, Hr5. simpl in Hr5.
    destruct (turn_in_last_call i Resolves _ _ Hr5) as [Hs6 _].
    simpl in Hs6. rewrite Hs5 in Hs6. simpl in Hs6.
    rewrite update_replaces_rules in Hs6 by apply new_rules_NoDup.
    exact Hs6.
  - destruct (turn_in_last_call i Resolves _ _ Hr4) as [Hs5 Hr5].
    simpl in Hs5, Hr5.
    destruct (turn_in_last_call i Resolves _ _ Hr5) as [Hs6 _].
    simpl in Hs6. by rewrite Hs6, Hs5, Hs4.
Qed.

Lemma failed_store_rolls_back_witness :
  shared (exec [(0, Resolves); (0, Resolves); (0, Rejects);
                (0, Resolves); (0, Resolves); (0, Resolves)]
            (one_run stored_browser
               (in_last_call (FetchRules [lit "ads.example.com"]))))
  = stored_browser.
Proof.
  apply (failed_store_rolls_back
           (one_run stored_browser
              (in_last_call (FetchRules [lit "ads.example.com"])))
           0 [lit "ads.example.com"] Rejects).
  - reflexivity.
  - reflexivity.
Defined.

(** Removing the ids [1..n] from rules numbered from [k + 1] on drops the
    first [n - k] of them. *)
Lemma filter_numbered (f : nat -> str -> rule) (l : list str) :
  forall (k n : nat),
  (forall i d, id (f i d) = S (k + i)) ->
  List.filter (fun r => negb (bool_decide (id r ∈ seq 1 n))) (imap f l)
  = drop (n - k) (imap f l).
Proof.
  revert f. induction l as [|x l IH]; intros f k n Hf; simpl.
  - by rewrite drop_nil.
  - rewrite Hf, Nat.add_0_r.
    assert (Htail : forall i d, id ((f ∘ S) i d) = S (S k + i)).
    { intros i d. unfold compose. rewrite Hf. lia. }
    destruct (decide (k < n)) as [Hlt|Hge].
    + rewrite bool_decide_eq_true_2 by (apply elem_of_seq; lia). simpl.
      rewrite (IH (f ∘ S) (S k) n Htail).
      replace (n - k) with (S (n - S k)) by lia. reflexivity.
    + rewrite bool_decide_eq_false_2 by (rewrite elem_of_seq; lia). simpl.
      rewrite (IH (f ∘ S) (S k) n Htail).
      replace (n - k) with 0 by lia. replace (n - S k) with 0 by lia.
      reflexivity.
Qed.

Lemma filter_new_rules (a c : list str) :
  List.filter (fun r => negb (bool_decide (id r ∈ map id (new_rules c))))
              (new_rules a)
  = drop (List.length c) (new_rules a).
Proof.
  rewrite new_rules_ids. unfold new_rules.
  rewrite (filter_numbered _ a 0 (List.length c)) by done.
  by rewrite Nat.sub_0_r.
Qed.

Lemma ids_of_mixture (a b c : list str) :
  map id (drop (List.length c) (new_rules a) ++ new_rules b)
  = seq (1 + List.length c) (List.length a - List.length c)
    ++ seq 1 (List.length b).
Proof.
  rewrite map_app, !new_rules_ids.
  change (map id ?x) with (id <$> x). rewrite fmap_drop.
  change (id <$> ?x) with (map id x). rewrite new_rules_ids.
  by rewrite drop_seq.
Qed.

Lemma mixture_NoDup (a b c : list str) :
  NoDup (map id (drop (List.length c) (new_rules a) ++ new_rules b))
  <-> List.length b <= List.length c \/ List.length a <= List.length c.
Proof.
  rewrite ids_of_mixture, NoDup_app. split.
  - intros (_ & Hdis & _).
    destruct (decide (List.length b <= List.length c)); [by left|].
    destruct (decide (List.length a <= List.length c)); [by right|].
    exfalso. apply (Hdis (1 + List.length c)); apply elem_of_seq; lia.
  - intros H. split; [apply NoDup_seq|]. split; [|apply NoDup_seq].
    intros x Hx Hx'. apply elem_of_seq in Hx, Hx'. lia.
Qed.

(** X30.  Overlapping runs are not isolated.  When two runs both call
    [getDynamicRules] before either updates, over rules numbered as
    [new_rules] numbers them, the first update replaces the rules, and the
    second removes only the ids that both had read: if the second list or
    the first is no longer than the old one, the rule set ends as the rules
    of the first list beyond the old length followed by all the rules of
    the second, a mixture of the two lists when the first is longer than
    the old one; otherwise an id would occur twice, the second update is
    rejected, the rules of the first list stay and the second run goes to
    its fallback. *)
Theorem overlapping_runs_mix_rules
    (s : system) (i j : nat) (a b c : list str) :
  i <> j ->
  runs s !! i = Some (in_last_call (FetchRules a)) ->
  runs s !! j = Some (in_last_call (FetchRules b)) ->
  dynamic_rules (shared s) = new_rules c ->
  let s' := exec [(i, Resolves); (j, Resolves); (i, Resolves); (j, Resolves)]
              s in
  (List.length b <= List.length c \/ List.length a <= List.length c ->
   dynamic_rules (shared s')
   = drop (List.length c) (new_rules a) ++ new_rules b
   /\ List.length (drop (List.length c) (new_rules a))
      = List.length a - List.length c)
  /\ (List.length c < List.length b /\ List.length c < List.length a ->
      dynamic_rules (shared s') = new_rules a
      /\ runs s' !! j = Some (in_last_call LoadStored)).
Proof.
  intros Hij Hi Hj Hc. simpl.
  destruct (turn_in_last_call i Resolves s _ Hi) as [Hs1 Hr1].
  simpl in Hs1, Hr1.
  assert (Hj1 : runs (turn i Resolves s) !! j
                = Some (in_last_call (FetchRules b)))
    by (rewrite turn_other; [exact Hj | exact Hij]).
  destruct (turn_in_last_call j Resolves _ _ Hj1) as [Hs2 Hr2].
  simpl in Hs2, Hr2. rewrite Hs1 in Hs2, Hr2.
  set (s2 := turn j Resolves (turn i Resolves s)) in *.
  assert (Hi2 : runs s2 !! i
                = Some (in_last_call
                          (FetchUpdate a (map id (dynamic_rules (shared s))))))
    by (unfold s2; rewrite turn_other; [exact Hr1 | congruence]).
  destruct (turn_in_last_call i Resolves _ _ Hi2) as [Hs3 Hr3].
  simpl in Hs3, Hr3. rewrite Hs2 in Hs3, Hr3.
  rewrite update_replaces_all in Hs3, Hr3 by apply new_rules_NoDup.
  simpl in Hs3, Hr3.
  set (s3 := turn i Resolves s2) in *.
  assert (Hj3 : runs s3 !! j
                = Some (in_last_call
                          (FetchUpdate b (map id (dynamic_rules (shared s))))))
    by (unfold s3; rewrite turn_other; [exact Hr2 | exact Hij]).
  destruct (turn_in_last_call j Resolves _ _ Hj3) as [Hs4 Hr4].
  simpl in Hs4, Hr4. rewrite Hs3, Hc in Hs4, Hr4.
  unfold updateDynamicRules in Hs4, Hr4. simpl in Hs4, Hr4.
  rewrite filter_new_rules in Hs4, Hr4.
  split.
  - intros Hlen. split.
    + rewrite bool_decide_eq_true_2 in Hs4 by (by apply mixture_NoDup).
      by rewrite Hs4.
    + rewrite length_drop. unfold new_rules. by rewrite length_imap.
  - intros [Hb Ha].
    rewrite bool_decide_eq_false_2 in Hs4, Hr4
      by (rewrite mixture_NoDup; lia).
    simpl in Hs4, Hr4. split; [by rewrite Hs4 | exact Hr4].
Qed.

Lemma overlapping_runs_witness :
  map (fun r => (id r, urlFilter r))
      (dynamic_rules
         (shared (exec [(0, Resolves); (1, Resolves); (0, Resolves);
                        (1, Resolves)] overlapping_runs)))
  = [(4, lit "||f4.example^"); (5, lit "||f5.example^");
     (1, lit "||s1.example^"); (2, lit "||s2.example^")].
Proof.
  pose proof (overlapping_runs_mix_rules overlapping_runs 0 1
                [lit "f1.example"; lit "f2.example"; lit "f3.example";
                 lit "f4.example"; lit "f5.example"]
                [lit "s1.example"; lit "s2.example"]
                [lit "a.example"; lit "b.example"; lit "c.example"]
                ltac:(discriminate) eq_refl eq_refl eq_refl) as H.
  cbv zeta in H. destruct H as [H _].
  destruct H as [H _]; [left; simpl; lia|].
  rewrite H. vm_compute. reflexivity.
Defined.

End ExtensionProps.
